(** * Tic-tac-toe engine ([game.py]): state machine and heuristic selector

    A shallow embedding of the [TicTacToe] dataclass of [game.py] and of
    its methods [make_move], [_check_winner], [_check_draw], [bot_move]
    and [_find_winning_move], followed by the properties of the
    specification that concern them.

    Methods of the dataclass read and write the fields of [self]; they
    are embedded in a state-and-exception monad over the record
    [TicTacToe], so that "this call leaves the game unchanged" is a
    statement about the final state and not a consequence of typing.
    Python list indexing is modelled with its negative indices and its
    [IndexError]. *)

From Stdlib Require Import ZArith Lia Ascii.
From stdpp Require Import base option list strings pretty gmap.

Local Open Scope Z_scope.

(** ** Data model *)

(** [class Cell(Enum)] *)
Module Cell.

Inductive t : Set := EMPTY | X | O.

(** Equality of enum members ([==] on [Cell] values). *)
Definition eqb (a b : t) : bool :=
  match a, b with
  | EMPTY, EMPTY | X, X | O, O => true
  | _, _ => false
  end.

End Cell.

#[global] Instance Cell_eq_dec : EqDecision Cell.t.
Proof. solve_decision. Defined.

(** [@dataclass class Player] *)
Record Player : Type := mkPlayer {
  user_id : Z;
  username : string;
  symbol : Cell.t
}.

(** A board position [(r, c)], a tuple of two Python integers. *)
Definition pos : Type := (Z * Z)%type.

(** [WIN_LINES]: the rows, then the columns, then the two diagonals. *)
Definition WIN_LINES : list (list pos) :=
  [ [(0, 0); (0, 1); (0, 2)];
    [(1, 0); (1, 1); (1, 2)];
    [(2, 0); (2, 1); (2, 2)];
    [(0, 0); (1, 0); (2, 0)];
    [(0, 1); (1, 1); (2, 1)];
    [(0, 2); (1, 2); (2, 2)];
    [(0, 0); (1, 1); (2, 2)];
    [(0, 2); (1, 1); (2, 0)] ].

(** [@dataclass class TicTacToe].  The board is a list of rows; the
    rows are distinct list objects (the default factory builds each one
    with its own [[Cell.EMPTY] * 3]), so a row is held by value. *)
Record TicTacToe : Type := mkGame {
  board : list (list Cell.t);
  player_x : option Player;
  player_o : option Player;
  current_turn : Cell.t;
  is_vs_bot : bool;
  game_over : bool;
  winner : option Cell.t
}.

(** [TicTacToe()]: the field defaults. *)
Definition new_game : TicTacToe :=
  {| board := replicate 3 (replicate 3 Cell.EMPTY);
     player_x := None;
     player_o := None;
     current_turn := Cell.X;
     is_vs_bot := false;
     game_over := false;
     winner := None |}.

(** Attribute assignments [self.f = v]. *)
Definition with_board (b : list (list Cell.t)) (g : TicTacToe) : TicTacToe :=
  mkGame b (player_x g) (player_o g) (current_turn g) (is_vs_bot g)
         (game_over g) (winner g).
Definition with_player_x (p : option Player) (g : TicTacToe) : TicTacToe :=
  mkGame (board g) p (player_o g) (current_turn g) (is_vs_bot g)
         (game_over g) (winner g).
Definition with_player_o (p : option Player) (g : TicTacToe) : TicTacToe :=
  mkGame (board g) (player_x g) p (current_turn g) (is_vs_bot g)
         (game_over g) (winner g).
Definition with_current_turn (c : Cell.t) (g : TicTacToe) : TicTacToe :=
  mkGame (board g) (player_x g) (player_o g) c (is_vs_bot g)
         (game_over g) (winner g).
Definition with_is_vs_bot (v : bool) (g : TicTacToe) : TicTacToe :=
  mkGame (board g) (player_x g) (player_o g) (current_turn g) v
         (game_over g) (winner g).
Definition with_game_over (v : bool) (g : TicTacToe) : TicTacToe :=
  mkGame (board g) (player_x g) (player_o g) (current_turn g) (is_vs_bot g)
         v (winner g).
Definition with_winner (w : option Cell.t) (g : TicTacToe) : TicTacToe :=
  mkGame (board g) (player_x g) (player_o g) (current_turn g) (is_vs_bot g)
         (game_over g) w.

(** ** Python lists *)

(** The position a Python index denotes in a list of length [len]:
    [0 .. len-1] as they are, [-len .. -1] counted from the end,
    anything else is out of range. *)
Definition py_index (len : nat) (i : Z) : option nat :=
  if (0 <=? i) && (i <? Z.of_nat len) then Some (Z.to_nat i)
  else if (- Z.of_nat len <=? i) && (i <? 0) then Some (Z.to_nat (Z.of_nat len + i))
  else None.

(** [l[i]]; [None] stands for [IndexError]. *)
Definition getitem {A : Type} (l : list A) (i : Z) : option A :=
  k ← py_index (length l) i; l !! k.

(** [l[i] = v]; [None] stands for [IndexError]. *)
Definition setitem {A : Type} (l : list A) (i : Z) (v : A) : option (list A) :=
  k ← py_index (length l) i; Some (<[k := v]> l).

(** [l.count(x)] *)
Definition count (x : Cell.t) (l : list Cell.t) : nat :=
  length (filter (λ y, y = x) l).

(** [l.index(x)]; [None] stands for [ValueError]. *)
Fixpoint index (x : Cell.t) (l : list Cell.t) : option nat :=
  match l with
  | [] => None
  | y :: l' => if Cell.eqb y x then Some 0%nat else S <$> index x l'
  end.

(** [b[r][c]] as a value, [None] when either index is out of range. *)
Definition cell_at (b : list (list Cell.t)) (p : pos) : option Cell.t :=
  row ← getitem b p.1; getitem row p.2.

(** [b[r][c] = v]: the row object found at [b[r]] is updated in place. *)
Definition board_update (b : list (list Cell.t)) (p : pos) (v : Cell.t)
  : option (list (list Cell.t)) :=
  i ← py_index (length b) p.1;
  row ← b !! i;
  row' ← setitem row p.2 v;
  Some (<[i := row']> b).

(** ** The monad of methods: state [self], exceptions *)

Inductive exn : Set := IndexError | ValueError.

Inductive outcome (A : Type) : Type :=
| Return (a : A) (self : TicTacToe)
| Raise (e : exn) (self : TicTacToe).
Arguments Return {A} a self.
Arguments Raise {A} e self.

Definition M (A : Type) : Type := TicTacToe → outcome A.

Definition ret {A : Type} (a : A) : M A := λ self, Return a self.

Definition bind {A B : Type} (m : M A) (k : A → M B) : M B :=
  λ self,
    match m self with
    | Return a self' => k a self'
    | Raise e self' => Raise e self'
    end.

Notation "'let*' x ':=' m 'in' k" := (bind m (λ x, k))
  (at level 10, x name, m at level 100, k at level 200, only parsing).
Notation "m ';;' k" := (bind m (λ _, k))
  (at level 100, k at level 200, right associativity, only parsing).

(** The state in which a call ends, returned or raised. *)
Definition final_state {A : Type} (o : outcome A) : TicTacToe :=
  match o with
  | Return _ self => self
  | Raise _ self => self
  end.

(** [self.f] *)
Definition get {A : Type} (f : TicTacToe → A) : M A := λ self, Return (f self) self.

(** [self.f = v] *)
Definition put (upd : TicTacToe → TicTacToe) : M unit := λ self, Return tt (upd self).

(** An operation on a list that may raise. *)
Definition or_raise {A : Type} (e : exn) (o : option A) : M A :=
  λ self, match o with Some a => Return a self | None => Raise e self end.

(** [self.board[r][c]] *)
Definition board_getitem (p : pos) : M Cell.t :=
  let* b := get board in or_raise IndexError (cell_at b p).

(** [self.board[r][c] = v] *)
Definition board_setitem (p : pos) (v : Cell.t) : M unit :=
  let* b := get board in
  let* b' := or_raise IndexError (board_update b p v) in
  put (with_board b').

(** ** Methods of [TicTacToe] *)

(** [all(self.board[r][c] == cell for r, c in line)]: the generator is
    consumed up to the first cell that differs. *)
Fixpoint all_equal (cell : Cell.t) (line : list pos) : M bool :=
  match line with
  | [] => ret true
  | p :: rest =>
      let* v := board_getitem p in
      if Cell.eqb v cell then all_equal cell rest else ret false
  end.

(** The [for line in WIN_LINES] loop of [_check_winner]. *)
Fixpoint check_winner_from (cell : Cell.t) (lines : list (list pos)) : M bool :=
  match lines with
  | [] => ret false
  | line :: rest =>
      let* hit := all_equal cell line in
      if hit then ret true else check_winner_from cell rest
  end.

Definition _check_winner (cell : Cell.t) : M bool :=
  check_winner_from cell WIN_LINES.

(** [range(3)] *)
Definition range3 : list Z := [0; 1; 2].

(** The positions [for r in range(3) for c in range(3)] enumerates. *)
Definition all_positions : list pos :=
  r ← range3; c ← range3; [(r, c)].

(** [all(self.board[r][c] != Cell.EMPTY for ...)] *)
Fixpoint all_occupied (ps : list pos) : M bool :=
  match ps with
  | [] => ret true
  | p :: rest =>
      let* v := board_getitem p in
      if negb (Cell.eqb v Cell.EMPTY) then all_occupied rest else ret false
  end.

Definition _check_draw : M bool := all_occupied all_positions.

(** [Cell.O if self.current_turn == Cell.X else Cell.X] *)
Definition next_turn (turn : Cell.t) : Cell.t :=
  if Cell.eqb turn Cell.X then Cell.O else Cell.X.

Definition make_move (row col : Z) (player_cell : Cell.t) : M bool :=
  let* over := get game_over in
  if over then ret false else
  let* v := board_getitem (row, col) in
  if negb (Cell.eqb v Cell.EMPTY) then ret false else
  let* turn := get current_turn in
  if negb (Cell.eqb player_cell turn) then ret false else
  board_setitem (row, col) player_cell ;;
  let* won := _check_winner player_cell in
  (if won then
     put (with_game_over true) ;;
     put (with_winner (Some player_cell))
   else
     let* draw := _check_draw in
     if draw then
       put (with_game_over true) ;;
       put (with_winner None)
     else
       let* turn := get current_turn in
       put (with_current_turn (next_turn turn))) ;;
  ret true.

(** [[self.board[r][c] for r, c in line]] *)
Fixpoint cells_of (line : list pos) : M (list Cell.t) :=
  match line with
  | [] => ret []
  | p :: rest =>
      let* v := board_getitem p in
      let* vs := cells_of rest in
      ret (v :: vs)
  end.

(** The [for line in WIN_LINES] loop of [_find_winning_move]. *)
Fixpoint find_winning_move_from (cell : Cell.t) (lines : list (list pos))
  : M (option pos) :=
  match lines with
  | [] => ret None
  | line :: rest =>
      let* cells_in_line := cells_of line in
      if (count cell cells_in_line =? 2)%nat
         && (count Cell.EMPTY cells_in_line =? 1)%nat
      then
        let* idx := or_raise ValueError (index Cell.EMPTY cells_in_line) in
        let* p := or_raise IndexError (getitem line (Z.of_nat idx)) in
        ret (Some p)
      else find_winning_move_from cell rest
  end.

Definition _find_winning_move (cell : Cell.t) : M (option pos) :=
  find_winning_move_from cell WIN_LINES.

(** [for r, c in ps: if self.board[r][c] == Cell.EMPTY: return (r, c)] *)
Fixpoint first_empty (ps : list pos) : M (option pos) :=
  match ps with
  | [] => ret None
  | p :: rest =>
      let* v := board_getitem p in
      if Cell.eqb v Cell.EMPTY then ret (Some p) else first_empty rest
  end.

Definition corners : list pos := [(0, 0); (0, 2); (2, 0); (2, 2)].
Definition edges : list pos := [(0, 1); (1, 0); (1, 2); (2, 1)].

(** [bot_move], given what [random.shuffle] makes of a list: the
    shuffle is the one source of non-determinism, and all that is known
    of it is that it permutes its argument. *)
Definition bot_move (shuffle : list pos → list pos) : M (option pos) :=
  let* over := get game_over in
  let* turn := get current_turn in
  if over || negb (Cell.eqb turn Cell.O) then ret None else
  let* move := _find_winning_move Cell.O in
  if move is Some _ then ret move else
  let* move := _find_winning_move Cell.X in
  if move is Some _ then ret move else
  let* center := board_getitem (1, 1) in
  if Cell.eqb center Cell.EMPTY then ret (Some (1, 1)) else
  let* found := first_empty (shuffle corners) in
  if found is Some _ then ret found else
  let* found := first_empty (shuffle edges) in
  if found is Some _ then ret found else
  ret None.

(** ** Vocabulary of the specification *)

(** A board of the data model: three rows of three cells. *)
Definition wf_board (b : list (list Cell.t)) : Prop :=
  length b = 3%nat ∧ Forall (λ row, length row = 3%nat) b.

(** The mark [m] occupies every cell of [line]. *)
Definition owns (b : list (list Cell.t)) (m : Cell.t) (line : list pos) : Prop :=
  Forall (λ p, cell_at b p = Some m) line.

(** The mark [m] occupies all three cells of one of the eight lines. *)
Definition has_line (b : list (list Cell.t)) (m : Cell.t) : Prop :=
  Exists (owns b m) WIN_LINES.

(** A line is monochromatic and non-empty. *)
Definition monochrome (b : list (list Cell.t)) (line : list pos) : Prop :=
  ∃ m, m ≠ Cell.EMPTY ∧ owns b m line.

(** The cell at [p] holds a mark. *)
Definition occupied (b : list (list Cell.t)) (p : pos) : Prop :=
  ∃ v, cell_at b p = Some v ∧ v ≠ Cell.EMPTY.

(** All nine cells are occupied. *)
Definition full (b : list (list Cell.t)) : Prop :=
  Forall (occupied b) all_positions.

(** The number of cells of the board that hold [m]. *)
Definition marks (m : Cell.t) (b : list (list Cell.t)) : nat :=
  count m (concat b).

(** In [line], the cell at [p] is empty and the other cells hold [m]:
    two in a line with the third cell empty, [p] being the third. *)
Definition gap_in (b : list (list Cell.t)) (m : Cell.t) (line : list pos) (p : pos)
  : Prop :=
  p ∈ line ∧ cell_at b p = Some Cell.EMPTY ∧
  ∀ q, q ∈ line → q ≠ p → cell_at b q = Some m.

(** Row and column both in [0, 2]. *)
Definition in_range (p : pos) : Prop := (0 ≤ p.1 ≤ 2) ∧ (0 ≤ p.2 ≤ 2).

(** The row and column a position denotes, when both indices are valid
    Python indices of a list of three. *)
Definition slot (p : pos) : option (nat * nat) :=
  i ← py_index 3 p.1; j ← py_index 3 p.2; Some (i, j).

#[global] Instance owns_dec b m line : Decision (owns b m line).
Proof. unfold owns. apply _. Defined.

#[global] Instance has_line_dec b m : Decision (has_line b m).
Proof. unfold has_line. apply _. Defined.

#[global] Instance occupied_dec b p : Decision (occupied b p).
Proof.
  unfold occupied. destruct (cell_at b p) as [v|].
  - destruct (decide (v = Cell.EMPTY)) as [->|Hv].
    + right. intros (v & Hv & Hne). by simplify_eq.
    + left. eauto.
  - right. intros (v & Hv & _). discriminate.
Defined.

#[global] Instance full_dec b : Decision (full b).
Proof. unfold full. apply _. Defined.

(** What an accepted move leaves behind, once the mark is on the board:
    the three-way evaluation at the end of [make_move]. *)
Definition settle (m : Cell.t) (g : TicTacToe) : TicTacToe :=
  if bool_decide (has_line (board g) m) then
    with_winner (Some m) (with_game_over true g)
  else if bool_decide (full (board g)) then
    with_winner None (with_game_over true g)
  else with_current_turn (next_turn (current_turn g)) g.

(** The states a game goes through: a fresh game, the player bindings
    and the bot flag the chat layer assigns, and calls of [make_move]
    with any arguments. *)
Inductive reachable : TicTacToe → Prop :=
| reach_new : reachable new_game
| reach_player_x g p : reachable g → reachable (with_player_x (Some p) g)
| reach_player_o g p : reachable g → reachable (with_player_o (Some p) g)
| reach_vs_bot g : reachable g → reachable (with_is_vs_bot true g)
| reach_move g row col m :
    reachable g → reachable (final_state (make_move row col m g)).

(** A run of [make_move] calls, each on the state the previous one left;
    the answers are collected (a call that raises stops the run). *)
Definition play (moves : list (Z * Z * Cell.t)) : M (list bool) :=
  foldr (λ '(r, c, m) rest,
           let* ok := make_move r c m in
           let* oks := rest in
           ret (ok :: oks))
        (ret []) moves.

(** The state after a run of [make_move] calls, whatever they answer. *)
Definition after (moves : list (Z * Z * Cell.t)) (g : TicTacToe) : TicTacToe :=
  foldl (λ s '(r, c, m), final_state (make_move r c m s)) g moves.

(** What holds of a game however it was played: the board keeps its
    shape, the turn is a mark, a game still open has no winner and no
    owned line, and the marks alternate, [X] first. *)
Definition invariant (g : TicTacToe) : Prop :=
  wf_board (board g) ∧
  (current_turn g = Cell.X ∨ current_turn g = Cell.O) ∧
  (game_over g = false →
   winner g = None ∧
   ¬ has_line (board g) Cell.X ∧ ¬ has_line (board g) Cell.O ∧
   (current_turn g = Cell.X → marks Cell.X (board g) = marks Cell.O (board g)) ∧
   (current_turn g = Cell.O →
    marks Cell.X (board g) = S (marks Cell.O (board g)))) ∧
  (marks Cell.X (board g) = marks Cell.O (board g) ∨
   marks Cell.X (board g) = S (marks Cell.O (board g))).

(** A computation that ends in the state it started from, whether it
    returns or raises. *)
Definition read_only {A : Type} (m : M A) : Prop :=
  ∀ s, final_state (m s) = s.

(** A winning line as the scans expect it: three distinct positions of
    the board. *)
Definition good_line (line : list pos) : Prop :=
  length line = 3%nat ∧ NoDup line ∧ Forall in_range line.

(** ** The queries of [TicTacToe] *)

(** [SYMBOLS]: a dictionary with the three members of [Cell] as keys,
    so a look-up never misses.  Strings are held as their UTF-8
    bytes. *)
Definition SYMBOLS (c : Cell.t) : string :=
  match c with
  | Cell.EMPTY => "·"
  | Cell.X => "❌"
  | Cell.O => "⭕"
  end.

Definition get_current_player : M (option Player) :=
  let* turn := get current_turn in
  if Cell.eqb turn Cell.X then get player_x else get player_o.

(** [self.winner == Cell.X] compares an optional cell with a cell. *)
Definition get_winner_player : M (option Player) :=
  let* w := get winner in
  if bool_decide (w = Some Cell.X) then get player_x
  else if bool_decide (w = Some Cell.O) then get player_o
  else ret None.

Definition get_cell_display (row col : Z) : M string :=
  let* v := board_getitem (row, col) in
  ret (SYMBOLS v).

(** How a game reached by play can have ended: a winner only with the
    flag set, a line of its own and the turn left on it; a draw only on
    a full board without a line; and an open game has a free cell. *)
Definition outcome_invariant (g : TicTacToe) : Prop :=
  (∀ w, winner g = Some w →
        game_over g = true ∧ (w = Cell.X ∨ w = Cell.O) ∧
        has_line (board g) w ∧ current_turn g = w) ∧
  (game_over g = true → winner g = None →
   full (board g) ∧
   ¬ has_line (board g) Cell.X ∧ ¬ has_line (board g) Cell.O) ∧
  (game_over g = false → ¬ full (board g)).

(** Row and column both valid Python indices of a list of three. *)
Definition py_in_range (p : pos) : Prop := (-3 ≤ p.1 < 3) ∧ (-3 ≤ p.2 < 3).

(** ** Runs of moves *)

(** The marks of the calls of a run of [make_move] that were accepted,
    in order; each call is made on the state the call before it left,
    whether that call returned or raised, as for [after]. *)
Fixpoint played (moves : list (Z * Z * Cell.t)) (g : TicTacToe) : list Cell.t :=
  match moves with
  | [] => []
  | (r, c, m) :: moves' =>
      match make_move r c m g with
      | Return true g1 => m :: played moves' g1
      | Return false g1 => played moves' g1
      | Raise _ g1 => played moves' g1
      end
  end.

(** The marks alternate, [start] first. *)
Fixpoint alternating (start : Cell.t) (ms : list Cell.t) : Prop :=
  match ms with
  | [] => True
  | m :: ms' => m = start ∧ alternating (next_turn start) ms'
  end.

(** ** Vocabulary of the move selector *)

(** No winning line has two cells of [m] and the third empty. *)
Definition no_gap (b : list (list Cell.t)) (m : Cell.t) : Prop :=
  ∀ l q, l ∈ WIN_LINES → ¬ gap_in b m l q.

(** [p] is the empty cell of the first winning line, in the order of
    [WIN_LINES], that has two cells of [m] and the third empty. *)
Definition first_gap (b : list (list Cell.t)) (m : Cell.t) (p : pos) : Prop :=
  ∃ i line, WIN_LINES !! i = Some line ∧ gap_in b m line p ∧
    ∀ j l q, (j < i)%nat → WIN_LINES !! j = Some l → ¬ gap_in b m l q.

(** The cell at [p] is empty. *)
Definition empty_at (b : list (list Cell.t)) (p : pos) : Prop :=
  cell_at b p = Some Cell.EMPTY.

#[global] Instance gap_in_dec b m line p : Decision (gap_in b m line p).
Proof.
  refine (cast_if (decide (p ∈ line ∧ cell_at b p = Some Cell.EMPTY ∧
                           Forall (λ q, q ≠ p → cell_at b q = Some m) line)));
    unfold gap_in; by rewrite Forall_forall in *.
Defined.

#[global] Instance no_gap_dec b m : Decision (no_gap b m).
Proof.
  refine (cast_if (decide (Forall (λ line,
                     Forall (λ q, ¬ gap_in b m line q) line) WIN_LINES)));
    unfold no_gap; rewrite !Forall_forall in *.
  - intros line q Hline Hgap.
    pose proof (f line Hline) as Hl. rewrite Forall_forall in Hl.
    apply (Hl q); [by destruct Hgap|done].
  - intros Hno. apply n. intros line Hline. apply Forall_forall.
    intros q _. by apply Hno.
Defined.

(** * The chat layer ([bot.py])

    The handlers of [bot.py] keep one game per chat in the dictionary
    [games] and talk to Telegram.  They are embedded over a state made
    of that dictionary and of the list of calls made to Telegram so
    far.  What lies outside the program is a parameter: what
    [random.shuffle] does, what [int] makes of a string, and whether a
    call to Telegram goes through or raises.  Updates are handled one
    at a time (the [Application] is built without concurrent updates),
    so a handler runs from start to end on the state the previous one
    left. *)

(** The attributes of a Telegram user the code reads. *)
Module User.

Record t : Type := mk {
  id : Z;
  username : option string;
  first_name : string
}.

End User.

(** [InlineKeyboardButton(text, callback_data=...)] *)
Record InlineKeyboardButton : Type := mkButton {
  text : string;
  callback_data : string
}.

(** [InlineKeyboardMarkup(keyboard)]: the rows of buttons. *)
Definition InlineKeyboardMarkup : Type := list (list InlineKeyboardButton).

(** The line feed of ["\n"]. *)
Definition nl : string := String "010"%char EmptyString.

(** [str(n)], as an f-string formats an integer. *)
Definition str (n : Z) : string := pretty n.

(** [s.split(sep)] for a separator of one character. *)
Fixpoint split (sep : ascii) (s : string) : list string :=
  match s with
  | EmptyString => [EmptyString]
  | String a s' =>
      if Ascii.eqb a sep then EmptyString :: split sep s'
      else match split sep s' with
           | part :: parts => String a part :: parts
           | [] => [String a EmptyString]
           end
  end.

Definition get_display_name (user : User.t) : string :=
  match User.username user with
  | Some name =>
      if bool_decide (name = EmptyString) then User.first_name user
      else "@" +:+ name
  | None => User.first_name user
  end.

(** [for x in xs: ... out.append(...)], with a body that reads the
    game. *)
Fixpoint for_each {A B : Type} (body : A → M B) (xs : list A) : M (list B) :=
  match xs with
  | [] => ret []
  | x :: xs' =>
      let* y := body x in
      let* ys := for_each body xs' in
      ret (y :: ys)
  end.

(** [build_board_keyboard(game, game_over)] *)
Definition build_board_keyboard (over : bool) : M InlineKeyboardMarkup :=
  for_each (λ row,
    for_each (λ col,
      let* cell := board_getitem (row, col) in
      let text := SYMBOLS cell in
      let callback_data :=
        if over || negb (Cell.eqb cell Cell.EMPTY)
        then "noop_" +:+ str row +:+ "_" +:+ str col
        else "move_" +:+ str row +:+ "_" +:+ str col in
      ret (mkButton text callback_data)) range3) range3.

Definition build_join_keyboard : InlineKeyboardMarkup :=
  [[mkButton "Join as ⭕" "join_o"]].

(** [build_board_with_join(game)]: the game is not read. *)
Definition build_board_with_join : InlineKeyboardMarkup :=
  ((λ row,
     (λ col, mkButton (SYMBOLS Cell.EMPTY)
                      ("wait_" +:+ str row +:+ "_" +:+ str col)) <$> range3)
   <$> range3) ++ [[mkButton "Join as ⭕" "join_o"]].

Definition build_play_again_keyboard : InlineKeyboardMarkup :=
  [[mkButton "Play Again" "play_again"]].

(** [build_game_over_keyboard(game)] *)
Definition build_game_over_keyboard : M InlineKeyboardMarkup :=
  let* keyboard :=
    for_each (λ row,
      for_each (λ col,
        let* cell := board_getitem (row, col) in
        ret (mkButton (SYMBOLS cell)
                      ("noop_" +:+ str row +:+ "_" +:+ str col))) range3) range3 in
  ret (keyboard ++ [[mkButton "Play Again" "play_again"]]).

(** [status_text(game)]; a [Player] is always truthy. *)
Definition status_text : M string :=
  let* over := get game_over in
  if over then
    let* winner := get_winner_player in
    match winner with
    | Some w =>
        ret ("🏆 " +:+ SYMBOLS (symbol w) +:+ " " +:+ username w +:+ " wins!")
    | None => ret "🤝 It's a draw!"
    end
  else
    let* current := get_current_player in
    match current with
    | Some c =>
        ret ("Tic-Tac-Toe" +:+ nl +:+ nl +:+ SYMBOLS (symbol c) +:+ " "
             +:+ username c +:+ "'s turn")
    | None => ret ("Tic-Tac-Toe" +:+ nl +:+ nl +:+ "Waiting for opponent...")
    end.

(** A call to Telegram. *)
Inductive call : Type :=
| reply_text (text : string) (reply_markup : InlineKeyboardMarkup)
| answer (text : option string) (show_alert : bool)
| edit_message_text (text : string) (reply_markup : InlineKeyboardMarkup).

(** What the program does not decide: what [random.shuffle] does to a
    list, what [int(s)] returns ([None] for [ValueError]), and whether
    a call to Telegram returns or raises. *)
Record Env : Type := mkEnv {
  shuffle_of : list pos → list pos;
  int_of : string → option Z;
  delivered : call → bool
}.

(** The module state: [games], and the calls made so far. *)
Record bot_state : Type := mkState {
  games : gmap Z TicTacToe;
  sent : list call
}.

Inductive error : Set :=
| PyError (e : exn)
| AttributeError
| TelegramError.

Inductive result (A : Type) : Type :=
| Done (a : A) (st : bot_state)
| Failed (e : error) (st : bot_state).
Arguments Done {A} a st.
Arguments Failed {A} e st.

Definition H (A : Type) : Type := bot_state → result A.

Definition hret {A : Type} (a : A) : H A := λ st, Done a st.

Definition hbind {A B : Type} (m : H A) (k : A → H B) : H B :=
  λ st,
    match m st with
    | Done a st' => k a st'
    | Failed e st' => Failed e st'
    end.

Notation "'let!' x ':=' m 'in' k" := (hbind m (λ x, k))
  (at level 10, x name, m at level 100, k at level 200, only parsing).
Notation "m ';;;' k" := (hbind m (λ _, k))
  (at level 100, k at level 200, right associativity, only parsing).

(** The state in which a handler ends, returned or raised. *)
Definition state_of {A : Type} (r : result A) : bot_state :=
  match r with
  | Done _ st => st
  | Failed _ st => st
  end.

(** [await ...]: a call to Telegram, which may raise. *)
Definition send (env : Env) (c : call) : H unit :=
  λ st,
    if delivered env c then Done tt (mkState (games st) (sent st ++ [c]))
    else Failed TelegramError st.

(** [games.get(chat_id)] *)
Definition games_get (chat_id : Z) : H (option TicTacToe) :=
  λ st, Done (games st !! chat_id) st.

(** [games[chat_id] = game] *)
Definition games_set (chat_id : Z) (game : TicTacToe) : H unit :=
  λ st, Done tt (mkState (<[chat_id := game]> (games st)) (sent st)).

(** A method call or attribute access on the object [games.get(chat_id)]
    refers to; on [None] it is an [AttributeError]. *)
Definition on_game {A : Type} (chat_id : Z) (m : M A) : H A :=
  λ st,
    match games st !! chat_id with
    | None => Failed AttributeError st
    | Some g =>
        match m g with
        | Return a g' => Done a (mkState (<[chat_id := g']> (games st)) (sent st))
        | Raise e g' =>
            Failed (PyError e) (mkState (<[chat_id := g']> (games st)) (sent st))
        end
    end.

(** An operation that may raise. *)
Definition or_fail {A : Type} (e : error) (o : option A) : H A :=
  λ st, match o with Some a => Done a st | None => Failed e st end.

(** The game a handler creates: [TicTacToe()] with [player_x] bound to
    the user, and in a private chat [player_o] bound to the bot. *)
Definition start_game (user : User.t) (is_private : bool) : TicTacToe :=
  let game :=
    with_player_x
      (Some (mkPlayer (User.id user) (get_display_name user) Cell.X)) new_game in
  if is_private then
    with_is_vs_bot true
      (with_player_o (Some (mkPlayer 0 "Bot 🤖" Cell.O)) game)
  else game.

Definition wants_to_play (name : string) : string :=
  "Tic-Tac-Toe" +:+ nl +:+ nl +:+ "❌ " +:+ name +:+ " wants to play!" +:+ nl
  +:+ "Tap 'Join as ⭕' to start the game.".

(** [tictactoe_command(update, context)], for the chat and the user of
    the update. *)
Definition tictactoe_command (env : Env) (chat_id : Z) (chat_type : string)
    (user : User.t) : H unit :=
  let is_private := bool_decide (chat_type = "private") in
  let game := start_game user is_private in
  if is_private then
    games_set chat_id game ;;;
    let! text := on_game chat_id status_text in
    let! keyboard := on_game chat_id (build_board_keyboard false) in
    send env (reply_text text keyboard)
  else
    games_set chat_id game ;;;
    let! name := or_fail AttributeError (username <$> player_x game) in
    send env (reply_text (wants_to_play name) build_board_with_join).

(** [_, row_str, col_str = data.split("_")] and the two [int(...)]:
    a [ValueError] unless there are three parts, the last two
    integers. *)
Definition parse_move (env : Env) (data : string) : option (Z * Z) :=
  match split "_"%char data with
  | [_; row_str; col_str] =>
      row ← int_of env row_str; col ← int_of env col_str; Some (row, col)
  | _ => None
  end.

(** The end of the ["move_"] branch of [callback_handler]: the status
    and the board after the moves, with the game-over keyboard or the
    playing one. *)
Definition show_game_over (env : Env) (chat_id : Z) : H unit :=
  let! text := on_game chat_id status_text in
  let! keyboard := on_game chat_id build_game_over_keyboard in
  send env (edit_message_text text keyboard).

Definition show_board (env : Env) (chat_id : Z) : H unit :=
  let! text := on_game chat_id status_text in
  let! keyboard := on_game chat_id (build_board_keyboard false) in
  send env (edit_message_text text keyboard).

(** [callback_handler(update, context)], for the chat, the user and
    the data of the callback query. *)
Definition callback_handler (env : Env) (chat_id : Z) (chat_type : string)
    (user : User.t) (data : string) : H unit :=
  if bool_decide (data = "play_again") then
    send env (answer None false) ;;;
    let is_private := bool_decide (chat_type = "private") in
    let game := start_game user is_private in
    if is_private then
      games_set chat_id game ;;;
      let! text := on_game chat_id status_text in
      let! keyboard := on_game chat_id (build_board_keyboard false) in
      send env (edit_message_text text keyboard)
    else
      games_set chat_id game ;;;
      let! name := or_fail AttributeError (username <$> player_x game) in
      send env (edit_message_text (wants_to_play name) build_board_with_join)
  else if bool_decide (data = "join_o") then
    let! game := games_get chat_id in
    if game is None then
      send env (answer (Some "No active game. Use /tictactoe to start one.") true)
    else
    let! player_o := on_game chat_id (get player_o) in
    if player_o is Some _ then
      send env (answer (Some "Game already has two players!") true)
    else
    let! player_x := on_game chat_id (get player_x) in
    let! x_id := or_fail AttributeError (user_id <$> player_x) in
    if bool_decide (User.id user = x_id) then
      send env (answer (Some "You can't play against yourself! Ask someone else to join.") true)
    else
    on_game chat_id
      (put (with_player_o
              (Some (mkPlayer (User.id user) (get_display_name user) Cell.O)))) ;;;
    send env (answer (Some "You joined as ⭕!") false) ;;;
    show_board env chat_id
  else if String.prefix "wait_" data then
    send env (answer (Some "Waiting for an opponent to join...") true)
  else if String.prefix "noop_" data then
    send env (answer None false)
  else if String.prefix "move_" data then
    let! game := games_get chat_id in
    if game is None then
      send env (answer (Some "No active game. Use /tictactoe to start one.") true)
    else
    let! player_o := on_game chat_id (get player_o) in
    if player_o is None then
      send env (answer (Some "Waiting for an opponent to join...") true)
    else
    let! rc := or_fail (PyError ValueError) (parse_move env data) in
    let! player_x := on_game chat_id (get player_x) in
    let! x_id := or_fail AttributeError (user_id <$> player_x) in
    let! o_id := or_fail AttributeError (user_id <$> player_o) in
    if negb (bool_decide (User.id user = x_id))
       && negb (bool_decide (User.id user = o_id)) then
      send env (answer (Some "You're not in this game!") true)
    else
    let player_cell :=
      if bool_decide (User.id user = x_id) then Cell.X else Cell.O in
    let! turn := on_game chat_id (get current_turn) in
    if negb (Cell.eqb player_cell turn) then
      send env (answer (Some "Not your turn!") true)
    else
    let! ok := on_game chat_id (make_move rc.1 rc.2 player_cell) in
    if negb ok then
      send env (answer (Some "Invalid move!") true)
    else
    send env (answer None false) ;;;
    let! over := on_game chat_id (get game_over) in
    if over then show_game_over env chat_id else
    let! vs_bot := on_game chat_id (get is_vs_bot) in
    let! turn := on_game chat_id (get current_turn) in
    if vs_bot && Cell.eqb turn Cell.O then
      let! bot_pos := on_game chat_id (bot_move (shuffle_of env)) in
      (if bot_pos is Some (r, c)
       then on_game chat_id (make_move r c Cell.O) ;;; hret tt
       else hret tt) ;;;
      let! over := on_game chat_id (get game_over) in
      if over then show_game_over env chat_id else show_board env chat_id
    else show_board env chat_id
  else hret tt.

(** For the examples: a shuffle that reverses its list, an [int] that
    knows the three digits the keyboards print, and calls to Telegram
    that all return. *)
Definition sample_env : Env :=
  mkEnv reverse
        (λ s, if bool_decide (s = "0") then Some 0
              else if bool_decide (s = "1") then Some 1
              else if bool_decide (s = "2") then Some 2
              else None)
        (λ _, true).

(** ** Vocabulary of the chat layer *)

(** Every game the dictionary holds was reached by play and has its
    first player. *)
Definition good_registry (gs : gmap Z TicTacToe) : Prop :=
  ∀ k g, gs !! k = Some g → reachable g ∧ is_Some (player_x g).

(** From [st] to [st'], the games of the chats other than [chat_id]
    are the same and the calls made are kept, new ones coming after. *)
Definition local_to (chat_id : Z) (st st' : bot_state) : Prop :=
  (∀ k, k ≠ chat_id → games st' !! k = games st !! k) ∧
  sent st `prefix_of` sent st'.

(** A computation of the chat layer whose end state is related to its
    start state, whether it returns or raises. *)
Definition stable {A : Type} (R : relation bot_state) (m : H A) : Prop :=
  ∀ st, R st (state_of (m st)).

(** From [st] to [st'], a well-formed dictionary stays well formed. *)
Definition keeps_registry (st st' : bot_state) : Prop :=
  good_registry (games st) → good_registry (games st').

(** A computation on a game that keeps it among the games reached by
    play, with its first player. *)
Definition keeps_good (A : Type) (m : M A) : Prop :=
  ∀ g, reachable g → is_Some (player_x g) →
       reachable (final_state (m g)) ∧ is_Some (player_x (final_state (m g))).


(** A handler run from [st] ends in a state that satisfies [Q], which
    is told the value returned, or [None] when the handler raised. *)
Definition ends {A : Type} (m : H A) (st : bot_state)
    (Q : option A → bot_state → Prop) : Prop :=
  match m st with
  | Done a st' => Q (Some a) st'
  | Failed _ st' => Q None st'
  end.

(** In a game against the bot, it is never left to [O] to move: the
    game is terminal or [X] is to move. *)
Definition bot_has_answered (g : TicTacToe) : Prop :=
  is_vs_bot g = true → game_over g = true ∨ current_turn g = Cell.X.

(** ** Python indexing on a three-element list *)

Lemma py_index_3_cases i :
  py_index 3 i = None ∧ ¬ (-3 ≤ i < 3) ∨
  (py_index 3 i = Some 0%nat ∧ (i = 0 ∨ i = -3)) ∨
  (py_index 3 i = Some 1%nat ∧ (i = 1 ∨ i = -2)) ∨
  (py_index 3 i = Some 2%nat ∧ (i = 2 ∨ i = -1)).
Proof.
  destruct (decide (-3 ≤ i < 3)) as [Hi|Hi].
  - assert (i = -3 ∨ i = -2 ∨ i = -1 ∨ i = 0 ∨ i = 1 ∨ i = 2) as Hc by lia.
    destruct Hc as [->|[->|[->|[->|[->| ->]]]]]; cbn; intuition lia.
  - left. split; [|done]. unfold py_index.
    destruct (Z.leb_spec 0 i), (Z.ltb_spec i (Z.of_nat 3)),
      (Z.leb_spec (- Z.of_nat 3) i), (Z.ltb_spec i 0); cbn; try done; lia.
Qed.

Lemma py_index_3_nonneg i :
  0 ≤ i ≤ 2 → py_index 3 i = Some (Z.to_nat i).
Proof.
  intros Hi. assert (i = 0 ∨ i = 1 ∨ i = 2) as [->|[->| ->]] by lia; done.
Qed.

Lemma wf_board_shape b :
  wf_board b →
  ∃ a0 a1 a2 b0 b1 b2 c0 c1 c2,
    b = [[a0; a1; a2]; [b0; b1; b2]; [c0; c1; c2]].
Proof.
  intros [Hlen Hrows].
  destruct b as [|r0 [|r1 [|r2 [|]]]]; try discriminate.
  apply Forall_cons in Hrows as [H0 Hrows].
  apply Forall_cons in Hrows as [H1 Hrows].
  apply Forall_cons in Hrows as [H2 _].
  destruct r0 as [|? [|? [|? [|]]]]; try discriminate.
  destruct r1 as [|? [|? [|? [|]]]]; try discriminate.
  destruct r2 as [|? [|? [|? [|]]]]; try discriminate.
  by repeat eexists.
Qed.

Lemma wf_board_new : wf_board (board new_game).
Proof. split; [done|]. cbn. by repeat constructor. Qed.

(** ** Reading and writing cells of a three by three board *)

Ltac index_cases i H :=
  destruct (py_index_3_cases i) as [[H _]|[[H _]|[[H _]|[H _]]]].

Ltac board_shape b :=
  let H := fresh "Hshape" in
  match goal with
  | Hwf : wf_board b |- _ =>
      pose proof (wf_board_shape b Hwf) as H;
      destruct H as (? & ? & ? & ? & ? & ? & ? & ? & ? & ->)
  end.

Ltac board_ops :=
  unfold slot, cell_at, board_update, getitem, setitem in *;
  cbn [fst snd length] in *.

Lemma cell_at_slot_None b p :
  wf_board b → slot p = None → cell_at b p = None.
Proof.
  intros Hwf. board_shape b. destruct p as [r c].
  index_cases r Hr; index_cases c Hc; board_ops;
    rewrite ?Hr, ?Hc; cbn; rewrite ?Hc; done.
Qed.

Lemma cell_at_slot_Some b p ij :
  wf_board b → slot p = Some ij → is_Some (cell_at b p).
Proof.
  intros Hwf. board_shape b. destruct p as [r c].
  index_cases r Hr; index_cases c Hc; board_ops;
    rewrite ?Hr, ?Hc; cbn; rewrite ?Hc; cbn; by eauto.
Qed.

Lemma slot_in_range p :
  in_range p → slot p = Some (Z.to_nat p.1, Z.to_nat p.2).
Proof.
  intros [H1 H2]. unfold slot.
  by rewrite (py_index_3_nonneg _ H1), (py_index_3_nonneg _ H2).
Qed.

Lemma slot_in_range_inj p q :
  in_range p → in_range q → slot q = slot p → q = p.
Proof.
  intros Hp Hq. rewrite (slot_in_range _ Hp), (slot_in_range _ Hq).
  destruct p as [r c], q as [r' c'], Hp as [? ?], Hq as [? ?]. cbn in *.
  intros [= Hr Hc]. f_equal; lia.
Qed.

Lemma cell_at_in_range b p :
  wf_board b → in_range p → is_Some (cell_at b p).
Proof.
  intros Hwf Hp. eapply cell_at_slot_Some; [done|]. by apply slot_in_range.
Qed.

Lemma board_update_is_Some b p v :
  wf_board b → is_Some (cell_at b p) → is_Some (board_update b p v).
Proof.
  intros Hwf. board_shape b. destruct p as [r c].
  index_cases r Hr; index_cases c Hc; board_ops;
    rewrite ?Hr, ?Hc; cbn; rewrite ?Hc; cbn; by eauto using is_Some_None.
Qed.

Lemma board_update_wf b p v b' :
  wf_board b → board_update b p v = Some b' → wf_board b'.
Proof.
  intros Hwf. board_shape b. destruct p as [r c].
  index_cases r Hr; index_cases c Hc; board_ops;
    rewrite ?Hr, ?Hc; cbn; rewrite ?Hc; cbn; intros [= <-];
    (split; [done|by repeat constructor]).
Qed.

Lemma cell_at_board_update b p v b' q :
  wf_board b → board_update b p v = Some b' →
  cell_at b' q = if decide (slot q = slot p) then Some v else cell_at b q.
Proof.
  intros Hwf. board_shape b. destruct p as [r c], q as [r' c'].
  index_cases r Hr; index_cases c Hc; board_ops;
    rewrite ?Hr, ?Hc; cbn; rewrite ?Hc; cbn; intros [= <-];
    index_cases r' Hr'; index_cases c' Hc';
    cbn; rewrite ?Hr', ?Hc'; cbn; rewrite ?Hc'; cbn; done.
Qed.

Lemma cell_at_board_update_same b p v b' :
  wf_board b → board_update b p v = Some b' → cell_at b' p = Some v.
Proof.
  intros Hwf Hup. rewrite (cell_at_board_update b p v b' p Hwf Hup).
  by rewrite decide_True.
Qed.

#[local] Arguments count : simpl never.
#[local] Arguments marks : simpl never.

Lemma count_cons x y l :
  count x (y :: l) = ((if decide (y = x) then 1 else 0) + count x l)%nat.
Proof. unfold count. rewrite filter_cons. by destruct (decide (y = x)). Qed.

Lemma count_nil x : count x [] = 0%nat.
Proof. done. Qed.

Lemma marks_board_update b p v b' :
  wf_board b → cell_at b p = Some Cell.EMPTY → v ≠ Cell.EMPTY →
  board_update b p v = Some b' →
  marks v b' = S (marks v b) ∧
  ∀ m, m ≠ v → m ≠ Cell.EMPTY → marks m b' = marks m b.
Proof.
  intros Hwf. board_shape b. destruct p as [r c]. intros Hp Hv.
  index_cases r Hr; index_cases c Hc; board_ops;
    rewrite ?Hr, ?Hc in *; cbn in *; rewrite ?Hc in *; cbn in *;
    try discriminate; injection Hp as ->; intros [= <-];
    (split; [|intros m Hm1 Hm2]); unfold marks; cbn [concat app];
    rewrite !count_cons, !count_nil;
    repeat match goal with
      | |- context [decide (Cell.EMPTY = ?m)] =>
          rewrite (decide_False (P := Cell.EMPTY = m)) by done
      | |- context [decide (v = v)] =>
          rewrite (decide_True (P := v = v)) by done
      | |- context [decide (v = ?m)] =>
          rewrite (decide_False (P := v = m)) by done
      end; lia.
Qed.

(** ** The positions the code enumerates *)

Lemma in_range_all_positions p : in_range p ↔ p ∈ all_positions.
Proof.
  split.
  - destruct p as [r c]. intros [Hr Hc]. cbn in Hr, Hc.
    assert (r = 0 ∨ r = 1 ∨ r = 2) as [->|[->| ->]] by lia;
      assert (c = 0 ∨ c = 1 ∨ c = 2) as [->|[->| ->]] by lia;
      cbn; rewrite !elem_of_cons; tauto.
  - cbn. rewrite !elem_of_cons, elem_of_nil.
    intros H; repeat destruct H as [->|H]; try done; split; cbn; lia.
Qed.

Lemma WIN_LINES_in_range line p : line ∈ WIN_LINES → p ∈ line → in_range p.
Proof.
  unfold WIN_LINES. rewrite !elem_of_cons, elem_of_nil.
  intros H; repeat destruct H as [->|H]; try done;
    rewrite !elem_of_cons, elem_of_nil;
    intros H; repeat destruct H as [->|H]; try done; split; cbn; lia.
Qed.

Lemma corners_in_range p : p ∈ corners → in_range p.
Proof.
  unfold corners. rewrite !elem_of_cons, elem_of_nil.
  intros H; repeat destruct H as [->|H]; try done; split; cbn; lia.
Qed.

Lemma edges_in_range p : p ∈ edges → in_range p.
Proof.
  unfold edges. rewrite !elem_of_cons, elem_of_nil.
  intros H; repeat destruct H as [->|H]; try done; split; cbn; lia.
Qed.

(** Every position is the centre, a corner or an edge. *)
Lemma in_range_kinds p :
  in_range p → p = (1, 1) ∨ p ∈ corners ∨ p ∈ edges.
Proof.
  destruct p as [r c]. intros [Hr Hc]. cbn in Hr, Hc.
  assert (r = 0 ∨ r = 1 ∨ r = 2) as [->|[->| ->]] by lia;
    assert (c = 0 ∨ c = 1 ∨ c = 2) as [->|[->| ->]] by lia;
    unfold corners, edges; rewrite !elem_of_cons; tauto.
Qed.

(** ** What the methods compute on a well-formed board *)

Lemma eqb_decide a b : Cell.eqb a b = bool_decide (a = b).
Proof. by destruct a, b. Qed.

Lemma board_getitem_run p s :
  board_getitem p s =
  match cell_at (board s) p with
  | Some v => Return v s
  | None => Raise IndexError s
  end.
Proof. done. Qed.

Lemma board_getitem_in_range p s :
  wf_board (board s) → in_range p →
  ∃ v, cell_at (board s) p = Some v ∧ board_getitem p s = Return v s.
Proof.
  intros Hwf Hp. destruct (cell_at_in_range _ _ Hwf Hp) as [v Hv].
  exists v. by rewrite board_getitem_run, Hv.
Qed.

Lemma all_equal_run m line s :
  wf_board (board s) → Forall in_range line →
  all_equal m line s = Return (bool_decide (owns (board s) m line)) s.
Proof.
  intros Hwf. induction 1 as [|p line Hp Hline IH]; [done|].
  cbn. unfold bind.
  destruct (board_getitem_in_range p s Hwf Hp) as (v & Hv & ->).
  rewrite eqb_decide. destruct (decide (v = m)) as [->|Hvm];
    [rewrite (bool_decide_eq_true_2 (m = m)) by done
    |rewrite (bool_decide_eq_false_2 (v = m)) by done].
  - rewrite IH. f_equal. apply bool_decide_ext. unfold owns.
    rewrite Forall_cons. tauto.
  - unfold ret. f_equal. symmetry. apply bool_decide_eq_false.
    unfold owns. rewrite Forall_cons. intros [? _]. congruence.
Qed.

Lemma check_winner_from_run m lines s :
  wf_board (board s) → Forall (Forall in_range) lines →
  check_winner_from m lines s =
  Return (bool_decide (Exists (owns (board s) m) lines)) s.
Proof.
  intros Hwf. induction 1 as [|line lines Hl Hlines IH].
  - done.
  - cbn. unfold bind. rewrite all_equal_run by done.
    destruct (decide (owns (board s) m line)) as [Hown|Hown];
      [rewrite (bool_decide_eq_true_2 _ Hown)
      |rewrite (bool_decide_eq_false_2 _ Hown)].
    + unfold ret. f_equal. symmetry. apply bool_decide_eq_true.
      by apply Exists_cons_hd.
    + rewrite IH. f_equal. apply bool_decide_ext.
      rewrite Exists_cons. tauto.
Qed.

Lemma WIN_LINES_Forall_in_range : Forall (Forall in_range) WIN_LINES.
Proof.
  apply Forall_forall. intros line Hl. apply Forall_forall. intros p Hp.
  by eapply WIN_LINES_in_range.
Qed.

Lemma check_winner_run m s :
  wf_board (board s) →
  _check_winner m s = Return (bool_decide (has_line (board s) m)) s.
Proof.
  intros Hwf. apply check_winner_from_run; [done|].
  apply WIN_LINES_Forall_in_range.
Qed.

Lemma all_occupied_run ps s :
  wf_board (board s) → Forall in_range ps →
  all_occupied ps s = Return (bool_decide (Forall (occupied (board s)) ps)) s.
Proof.
  intros Hwf. induction 1 as [|p ps Hp Hps IH]; [done|].
  cbn. unfold bind.
  destruct (board_getitem_in_range p s Hwf Hp) as (v & Hv & ->).
  rewrite eqb_decide. destruct (decide (v = Cell.EMPTY)) as [->|Hve];
    [rewrite (bool_decide_eq_true_2 (Cell.EMPTY = Cell.EMPTY)) by done
    |rewrite (bool_decide_eq_false_2 (v = Cell.EMPTY)) by done]; cbn.
  - unfold ret. f_equal. symmetry. apply bool_decide_eq_false.
    rewrite Forall_cons. intros [(v & Hv' & Hne) _]. congruence.
  - rewrite IH. f_equal. apply bool_decide_ext.
    rewrite Forall_cons. split; [|by intros [_ ?]].
    intros Hrest. split; [by exists v|done].
Qed.

Lemma check_draw_run s :
  wf_board (board s) →
  _check_draw s = Return (bool_decide (full (board s))) s.
Proof.
  intros Hwf. apply all_occupied_run; [done|].
  apply Forall_forall. intros p. apply in_range_all_positions.
Qed.

(** [make_move] in closed form: the three guards, then the write and
    the evaluation [settle]. *)
Lemma make_move_run row col m s :
  wf_board (board s) →
  make_move row col m s =
  if game_over s then Return false s else
  match cell_at (board s) (row, col) with
  | None => Raise IndexError s
  | Some v =>
      if negb (Cell.eqb v Cell.EMPTY) then Return false s else
      if negb (Cell.eqb m (current_turn s)) then Return false s else
      match board_update (board s) (row, col) m with
      | None => Raise IndexError s
      | Some b' => Return true (settle m (with_board b' s))
      end
  end.
Proof.
  intros Hwf. unfold make_move, bind at 1, get.
  destruct (game_over s) eqn:Hover; [done|].
  unfold bind at 1. rewrite board_getitem_run.
  destruct (cell_at (board s) (row, col)) as [v|] eqn:Hv; [|done].
  destruct (negb (Cell.eqb v Cell.EMPTY)); [done|].
  unfold bind at 1.
  destruct (negb (Cell.eqb m (current_turn s))); [done|].
  unfold bind at 1, board_setitem, bind at 1, get, bind at 1, or_raise.
  destruct (board_update (board s) (row, col) m) as [b'|] eqn:Hup; [|done].
  unfold put at 1.
  assert (wf_board (board (with_board b' s))) as Hwf'
    by (cbn; by eapply board_update_wf).
  unfold bind at 1, bind at 1. rewrite check_winner_run by done.
  unfold settle. destruct (bool_decide (has_line _ m)); [done|].
  unfold bind at 1. rewrite check_draw_run by done.
  by destruct (bool_decide (full _)).
Qed.

(** The evaluation after the write touches neither the board nor the
    bindings. *)
Lemma settle_frame m g :
  board (settle m g) = board g ∧ player_x (settle m g) = player_x g ∧
  player_o (settle m g) = player_o g ∧ is_vs_bot (settle m g) = is_vs_bot g.
Proof.
  unfold settle.
  by destruct (bool_decide (has_line (board g) m)),
    (bool_decide (full (board g))).
Qed.

Lemma next_turn_other m : next_turn m ≠ m.
Proof. by destruct m. Qed.

Lemma next_turn_mark m : next_turn m = Cell.X ∨ next_turn m = Cell.O.
Proof. destruct m; cbn; auto. Qed.

(** A call on a terminal game answers [False] and changes nothing. *)
Lemma make_move_game_over row col m g :
  game_over g = true → make_move row col m g = Return false g.
Proof. intros Hover. unfold make_move, bind, get. by rewrite Hover. Qed.

(** What a call of [make_move] can do to a well-formed game. *)
Lemma make_move_outcomes row col m g :
  wf_board (board g) →
  make_move row col m g = Return false g ∨
  make_move row col m g = Raise IndexError g ∨
  ∃ b', game_over g = false ∧ m = current_turn g ∧
        cell_at (board g) (row, col) = Some Cell.EMPTY ∧
        board_update (board g) (row, col) m = Some b' ∧
        make_move row col m g = Return true (settle m (with_board b' g)).
Proof.
  intros Hwf. rewrite make_move_run by done.
  destruct (game_over g); [by left|].
  destruct (cell_at (board g) (row, col)) as [v|] eqn:Hv; [|by right; left].
  rewrite !eqb_decide.
  destruct (decide (v = Cell.EMPTY)) as [->|Hne];
    [rewrite (bool_decide_eq_true_2 (Cell.EMPTY = Cell.EMPTY)) by done
    |rewrite (bool_decide_eq_false_2 (v = Cell.EMPTY)) by done; by left].
  destruct (decide (m = current_turn g)) as [Hm|Hm];
    [rewrite (bool_decide_eq_true_2 _ Hm)
    |rewrite (bool_decide_eq_false_2 _ Hm); by left].
  cbn. destruct (board_update_is_Some (board g) (row, col) m Hwf) as [b' Hb'];
    [by rewrite Hv|].
  rewrite Hb'. right; right. by exists b'.
Qed.

(** ** Properties of [make_move] *)

(** C1: on a game that is not terminal, a move by the mark whose turn
    it is, at an empty cell with row and column in [0, 2], is accepted
    and writes the mark; then, in this order: the mark owns a winning
    line and the game is terminal with that winner; or else the board
    is full and the game is terminal without winner; or else the turn
    passes to the other mark. *)
Theorem make_move_accepted g row col m :
  wf_board (board g) → game_over g = false →
  0 ≤ row ≤ 2 → 0 ≤ col ≤ 2 →
  m = current_turn g → cell_at (board g) (row, col) = Some Cell.EMPTY →
  ∃ g', make_move row col m g = Return true g' ∧
        board_update (board g) (row, col) m = Some (board g') ∧
        cell_at (board g') (row, col) = Some m ∧
        ((has_line (board g') m ∧
          game_over g' = true ∧ winner g' = Some m) ∨
         (¬ has_line (board g') m ∧ full (board g') ∧
          game_over g' = true ∧ winner g' = None) ∨
         (¬ has_line (board g') m ∧ ¬ full (board g') ∧
          game_over g' = false ∧ winner g' = winner g ∧
          current_turn g' = next_turn m ∧ next_turn m ≠ m)).
Proof.
  intros Hwf Hover Hrow Hcol Hm Hcell.
  destruct (make_move_outcomes row col m g Hwf) as [Hr|[Hr|(b' & _ & _ & _ & Hup & Hr)]].
  - rewrite make_move_run, Hover, Hcell in Hr by done. cbn in Hr.
    rewrite eqb_decide, bool_decide_eq_true_2 in Hr by done. cbn in Hr.
    by destruct (board_update _ _ _).
  - rewrite make_move_run, Hover, Hcell in Hr by done. cbn in Hr.
    rewrite eqb_decide, bool_decide_eq_true_2 in Hr by done. cbn in Hr.
    destruct (board_update_is_Some (board g) (row, col) m Hwf) as [b' Hb'];
      [by rewrite Hcell|].
    by rewrite Hb' in Hr.
  - exists (settle m (with_board b' g)).
    destruct (settle_frame m (with_board b' g)) as (Hb & _).
    rewrite Hb. cbn [board with_board].
    split; [done|]. split; [done|].
    split; [by eapply cell_at_board_update_same|].
    unfold settle. cbn [board with_board].
    destruct (decide (has_line b' m)) as [Hl|Hl];
      [rewrite (bool_decide_eq_true_2 _ Hl); left; by cbn|].
    rewrite (bool_decide_eq_false_2 _ Hl).
    destruct (decide (full b')) as [Hf|Hf];
      [rewrite (bool_decide_eq_true_2 _ Hf); right; left; by cbn|].
    rewrite (bool_decide_eq_false_2 _ Hf). right; right. cbn.
    rewrite Hover, <- Hm. repeat apply conj; try done. apply next_turn_other.
Qed.

Lemma make_move_accepted_witness :
  ∃ g', make_move 0 0 Cell.X new_game = Return true g' ∧
        board_update (board new_game) (0, 0) Cell.X = Some (board g') ∧
        cell_at (board g') (0, 0) = Some Cell.X ∧
        ((has_line (board g') Cell.X ∧
          game_over g' = true ∧ winner g' = Some Cell.X) ∨
         (¬ has_line (board g') Cell.X ∧ full (board g') ∧
          game_over g' = true ∧ winner g' = None) ∨
         (¬ has_line (board g') Cell.X ∧ ¬ full (board g') ∧
          game_over g' = false ∧ winner g' = winner new_game ∧
          current_turn g' = next_turn Cell.X ∧ next_turn Cell.X ≠ Cell.X)).
Proof.
  apply (make_move_accepted new_game 0 0 Cell.X);
    [apply wf_board_new | reflexivity | lia | lia | reflexivity | reflexivity].
Defined.

(** C3: with row and column in [0, 2], [make_move] answers, and it
    answers [False] exactly when the game is terminal, or the target
    cell is not empty, or the mark is not the one whose turn it is; a
    rejected call leaves the whole game as it was, so the same call made
    again is rejected again, with the same state. *)
Theorem make_move_rejects_iff g row col m :
  wf_board (board g) → 0 ≤ row ≤ 2 → 0 ≤ col ≤ 2 →
  ∃ ok g', make_move row col m g = Return ok g' ∧
    (ok = false ↔
       game_over g = true ∨
       cell_at (board g) (row, col) ≠ Some Cell.EMPTY ∨
       m ≠ current_turn g) ∧
    (ok = false → g' = g ∧ make_move row col m g' = Return false g').
Proof.
  intros Hwf Hrow Hcol.
  destruct (cell_at_in_range (board g) (row, col) Hwf) as [v Hv]; [done|].
  destruct (make_move_outcomes row col m g Hwf)
    as [Hr|[Hr|(b' & Hover & Hm & Hcell & Hup & Hr)]].
  - exists false, g. split; [done|]. split; [|done]. split; [|done].
    intros _. rewrite make_move_run, Hv in Hr by done.
    destruct (game_over g); [by left|]. right.
    rewrite !eqb_decide in Hr.
    destruct (decide (v = Cell.EMPTY)) as [->|Hne]; [|left; congruence].
    destruct (decide (m = current_turn g)) as [Hm|Hm]; [|by right].
    rewrite (bool_decide_eq_true_2 (Cell.EMPTY = Cell.EMPTY)) in Hr by done.
    rewrite (bool_decide_eq_true_2 _ Hm) in Hr. cbn in Hr.
    by destruct (board_update _ _ _).
  - rewrite make_move_run, Hv in Hr by done.
    destruct (game_over g); [done|].
    destruct (negb _); [done|]. destruct (negb _); [done|].
    destruct (board_update_is_Some (board g) (row, col) m Hwf) as [b' Hb'];
      [by rewrite Hv|].
    by rewrite Hb' in Hr.
  - exists true, (settle m (with_board b' g)). split; [done|].
    split; [|done]. split; [done|].
    intros [Ho|[Hc|Hc]]; congruence.
Qed.

Lemma make_move_rejects_iff_witness :
  ∃ ok g', make_move 1 1 Cell.O new_game = Return ok g' ∧
    (ok = false ↔
       game_over new_game = true ∨
       cell_at (board new_game) (1, 1) ≠ Some Cell.EMPTY ∨
       Cell.O ≠ current_turn new_game) ∧
    (ok = false → g' = new_game ∧ make_move 1 1 Cell.O g' = Return false g').
Proof.
  apply (make_move_rejects_iff new_game 1 1 Cell.O);
    [apply wf_board_new | lia | lia].
Defined.

Lemma after_game_over moves g : game_over g = true → after moves g = g.
Proof.
  intros Hover. induction moves as [|[[r c] m] moves IH]; [done|].
  unfold after in *. cbn [foldl]. by rewrite make_move_game_over.
Qed.

(** C4: once the terminal flag is set, it stays set through any run of
    [make_move] calls, and each of them answers [False] and leaves the
    game as it was, whatever the arguments: the flag is tested before
    the board is indexed, so a row or column outside the board is
    rejected like any other. *)
Theorem terminal_is_absorbing g moves row col m :
  game_over g = true →
  game_over (after moves g) = true ∧
  make_move row col m (after moves g) = Return false (after moves g) ∧
  after moves g = g.
Proof.
  intros Hover. rewrite after_game_over by done.
  split; [done|]. split; [|done]. by apply make_move_game_over.
Qed.

Lemma terminal_is_absorbing_witness :
  let g := with_winner (Some Cell.X) (with_game_over true new_game) in
  let moves := [(0, 0, Cell.X); (7, -9, Cell.O)] in
  game_over (after moves g) = true ∧
  make_move 5 (-4) Cell.EMPTY (after moves g) = Return false (after moves g) ∧
  after moves g = g.
Proof.
  apply (terminal_is_absorbing
           (with_winner (Some Cell.X) (with_game_over true new_game))
           [(0, 0, Cell.X); (7, -9, Cell.O)] 5 (-4) Cell.EMPTY).
  reflexivity.
Defined.

(** C10: a call of [make_move], accepted or rejected, leaves both
    player bindings and the bot flag as they were, and every cell of the
    board other than the one at the given row and column. *)
Theorem make_move_frame g row col m :
  wf_board (board g) → 0 ≤ row ≤ 2 → 0 ≤ col ≤ 2 →
  ∃ ok g', make_move row col m g = Return ok g' ∧
    player_x g' = player_x g ∧ player_o g' = player_o g ∧
    is_vs_bot g' = is_vs_bot g ∧
    ∀ r c, 0 ≤ r ≤ 2 → 0 ≤ c ≤ 2 → (r, c) ≠ (row, col) →
           cell_at (board g') (r, c) = cell_at (board g) (r, c).
Proof.
  intros Hwf Hrow Hcol.
  destruct (make_move_outcomes row col m g Hwf)
    as [Hr|[Hr|(b' & Hover & Hm & Hcell & Hup & Hr)]].
  - by exists false, g.
  - destruct (cell_at_in_range (board g) (row, col) Hwf) as [v Hv]; [done|].
    rewrite make_move_run, Hv in Hr by done.
    destruct (game_over g); [done|].
    destruct (negb _); [done|]. destruct (negb _); [done|].
    destruct (board_update_is_Some (board g) (row, col) m Hwf) as [b' Hb'];
      [by rewrite Hv|].
    by rewrite Hb' in Hr.
  - exists true, (settle m (with_board b' g)). split; [done|].
    destruct (settle_frame m (with_board b' g)) as (-> & -> & -> & ->).
    cbn. repeat apply conj; try done.
    intros r c Hr' Hc' Hne.
    rewrite (cell_at_board_update _ _ _ _ (r, c) Hwf Hup).
    rewrite decide_False; [done|].
    intros Heq. apply Hne. by apply slot_in_range_inj.
Qed.

Lemma make_move_frame_witness :
  ∃ ok g', make_move 2 1 Cell.X new_game = Return ok g' ∧
    player_x g' = player_x new_game ∧ player_o g' = player_o new_game ∧
    is_vs_bot g' = is_vs_bot new_game ∧
    ∀ r c, 0 ≤ r ≤ 2 → 0 ≤ c ≤ 2 → (r, c) ≠ (2, 1) →
           cell_at (board g') (r, c) = cell_at (board new_game) (r, c).
Proof.
  apply (make_move_frame new_game 2 1 Cell.X);
    [apply wf_board_new | lia | lia].
Defined.

(** ** Reachable games *)

(** A line owned by a mark other than the one just written was owned
    by it before the write. *)
Lemma has_line_before_update b p m b' w :
  wf_board b → board_update b p m = Some b' → w ≠ m →
  has_line b' w → has_line b w.
Proof.
  intros Hwf Hup Hne. unfold has_line, owns.
  intros Hex. eapply Exists_impl; [exact Hex|].
  intros line Hline. eapply Forall_impl; [exact Hline|].
  intros q. cbn. rewrite (cell_at_board_update b p m b' q Hwf Hup).
  destruct (decide (slot q = slot p)); congruence.
Qed.

Lemma invariant_new : invariant new_game.
Proof.
  split; [apply wf_board_new|]. split; [by left|]. split; [|by left].
  intros _. split; [done|].
  split; [intros H; apply (bool_decide_eq_true_2 _) in H; by vm_compute in H|].
  split; [intros H; apply (bool_decide_eq_true_2 _) in H; by vm_compute in H|].
  done.
Qed.

Lemma invariant_make_move g row col m :
  invariant g → invariant (final_state (make_move row col m g)).
Proof.
  intros Hinv. pose proof Hinv as (Hwf & Hturn & Hopen & Hbal).
  destruct (make_move_outcomes row col m g Hwf)
    as [->|[->|(b' & Hover & Hm & Hcell & Hup & ->)]]; [done|done|].
  cbn [final_state].
  destruct (Hopen Hover) as (Hwin & HnX & HnO & HbX & HbO).
  assert (m ≠ Cell.EMPTY) as Hmark by (destruct Hturn; congruence).
  destruct (marks_board_update _ _ _ _ Hwf Hcell Hmark Hup) as [Hplus Hsame].
  pose proof (board_update_wf _ _ _ _ Hwf Hup) as Hwf'.
  assert (marks Cell.X b' = marks Cell.O b' ∧ m = Cell.O ∨
          marks Cell.X b' = S (marks Cell.O b') ∧ m = Cell.X) as Hbal'.
  { destruct Hturn as [Ht|Ht]; rewrite Ht in Hm; subst m.
    - right. rewrite Hplus, (Hsame Cell.O) by done. by rewrite HbX.
    - left. rewrite Hplus, (Hsame Cell.X) by done. by rewrite HbO. }
  destruct (settle_frame m (with_board b' g)) as (Hb & _).
  unfold invariant. rewrite Hb. cbn [board with_board].
  split; [done|]. unfold settle. cbn [board with_board].
  destruct (decide (has_line b' m)) as [Hl|Hl];
    [rewrite (bool_decide_eq_true_2 _ Hl)
    |rewrite (bool_decide_eq_false_2 _ Hl)].
  { cbn. split; [done|]. split; [done|]. tauto. }
  destruct (decide (full b')) as [Hf|Hf];
    [rewrite (bool_decide_eq_true_2 _ Hf)
    |rewrite (bool_decide_eq_false_2 _ Hf)].
  { cbn. split; [done|]. split; [done|]. tauto. }
  cbn. split; [apply next_turn_mark|]. split; [|tauto].
  intros _. split; [done|].
  assert (∀ w, w ≠ m → ¬ has_line (board g) w → ¬ has_line b' w) as Hold.
  { intros w Hw Hnw Hlw. apply Hnw. by eapply has_line_before_update. }
  rewrite <- Hm.
  destruct Hbal' as [[Heq ->]|[Heq ->]]; cbn;
    (split; [by auto|]); (split; [by auto|]); by split.
Qed.

Lemma reachable_invariant g : reachable g → invariant g.
Proof.
  induction 1 as [|g p _ IH|g p _ IH|g _ IH|g row col m _ IH].
  - apply invariant_new.
  - exact IH.
  - exact IH.
  - exact IH.
  - by apply invariant_make_move.
Qed.

Lemma reachable_after moves g : reachable g → reachable (after moves g).
Proof.
  revert g. induction moves as [|[[r c] m] moves IH]; intros g Hg; [done|].
  apply IH. by constructor.
Qed.

Lemma has_line_exists b m :
  has_line b m ↔ ∃ line, line ∈ WIN_LINES ∧ owns b m line.
Proof. unfold has_line. by rewrite Exists_exists. Qed.

Lemma make_move_in_range_outcomes row col m g :
  wf_board (board g) → 0 ≤ row ≤ 2 → 0 ≤ col ≤ 2 →
  make_move row col m g = Return false g ∨
  ∃ b', game_over g = false ∧ m = current_turn g ∧
        cell_at (board g) (row, col) = Some Cell.EMPTY ∧
        board_update (board g) (row, col) m = Some b' ∧
        make_move row col m g = Return true (settle m (with_board b' g)).
Proof.
  intros Hwf Hrow Hcol.
  destruct (make_move_outcomes row col m g Hwf) as [Hr|[Hr|Hr]]; [by left| |by right].
  destruct (cell_at_in_range (board g) (row, col) Hwf) as [v Hv]; [done|].
  rewrite make_move_run, Hv in Hr by done.
  destruct (game_over g); [done|].
  destruct (negb _); [done|]. destruct (negb _); [done|].
  destruct (board_update_is_Some (board g) (row, col) m Hwf) as [b' Hb'];
    [by rewrite Hv|].
  by rewrite Hb' in Hr.
Qed.

(** C2: from a game reached by play, an accepted move is a move by the
    mark whose turn it is on an empty cell, and the board after it is
    the board before it with that mark written in the cell; the move
    ends the game with a winner exactly when some winning line of that
    board is monochromatic and non-empty, and ends it as a draw exactly
    when its nine cells are filled and no winning line is
    monochromatic.  The win check looks at the mark just played only: a
    winner, when there is one, is that mark, and no line of the other
    mark can be there.  A move that ends the game neither way leaves it
    open. *)
Theorem terminal_iff_line_or_full g row col m g' :
  reachable g → make_move row col m g = Return true g' →
  (game_over g = false ∧ m = current_turn g ∧
   cell_at (board g) (row, col) = Some Cell.EMPTY ∧
   board_update (board g) (row, col) m = Some (board g') ∧
   cell_at (board g') (row, col) = Some m) ∧
  ((game_over g' = true ∧ is_Some (winner g')) ↔
     (∃ line, line ∈ WIN_LINES ∧ monochrome (board g') line)) ∧
  ((game_over g' = true ∧ winner g' = None) ↔
     (full (board g') ∧
      ∀ line, line ∈ WIN_LINES → ¬ monochrome (board g') line)) ∧
  (∀ w, winner g' = Some w → w = m ∧ has_line (board g') m) ∧
  (game_over g' = false ↔
     (¬ full (board g') ∧
      ∀ line, line ∈ WIN_LINES → ¬ monochrome (board g') line)).
Proof.
  intros Hreach Hmove.
  destruct (reachable_invariant g Hreach) as (Hwf & Hturn & Hopen & _).
  destruct (make_move_outcomes row col m g Hwf)
    as [Hr|[Hr|(b' & Hover & Hm & Hcell & Hup & Hr)]]; [congruence|congruence|].
  rewrite Hr in Hmove. injection Hmove as <-.
  destruct (Hopen Hover) as (Hwin & HnX & HnO & _).
  assert (∀ line, line ∈ WIN_LINES → monochrome b' line → has_line b' m)
    as Hmono.
  { intros line Hin (w & Hw & Hown).
    assert (has_line b' w) as Hlw by (apply has_line_exists; eauto).
    destruct (decide (w = m)) as [->|Hne]; [done|].
    pose proof (has_line_before_update _ _ _ _ _ Hwf Hup Hne Hlw).
    destruct w; done. }
  assert (has_line b' m → ∃ line, line ∈ WIN_LINES ∧ monochrome b' line)
    as Hline.
  { intros (line & Hin & Hown)%has_line_exists. exists line. split; [done|].
    exists m. split; [destruct Hturn; congruence|done]. }
  destruct (settle_frame m (with_board b' g)) as (Hb & _).
  rewrite Hb. cbn [board with_board].
  split.
  { repeat split; try done. by eapply cell_at_board_update_same. }
  unfold settle. cbn [board with_board].
  destruct (decide (has_line b' m)) as [Hl|Hl];
    [rewrite (bool_decide_eq_true_2 _ Hl)
    |rewrite (bool_decide_eq_false_2 _ Hl)].
  { cbn. split; [split; [by auto|by eauto]|].
    destruct (Hline Hl) as (line & Hin & Hmc).
    split; [|split; [by intros w [= <-]|]].
    - split; [by intros [_ ?]|]. intros [_ Hnone]. by destruct (Hnone line Hin).
    - split; [done|]. intros [_ Hnone]. by destruct (Hnone line Hin). }
  assert (∀ line, line ∈ WIN_LINES → ¬ monochrome b' line) as Hnone
    by (intros line Hin Hmc; by apply Hl, (Hmono line)).
  destruct (decide (full b')) as [Hf|Hf];
    [rewrite (bool_decide_eq_true_2 _ Hf)
    |rewrite (bool_decide_eq_false_2 _ Hf)].
  { cbn. split; [|split; [by split|split; [done|]]].
    - split; [by intros [_ [? [=]]]|].
      intros (line & Hin & Hmc). by destruct (Hnone line Hin).
    - split; [done|]. by intros [? _]. }
  cbn. rewrite Hover, Hwin.
  split; [|split; [|split; [done|by split]]].
  - split; [by intros [[=] _]|].
    intros (line & Hin & Hmc). by destruct (Hnone line Hin).
  - split; [by intros [[=] _]|]. by intros [? _].
Qed.

Lemma terminal_iff_line_or_full_witness :
  let g := after [(0, 0, Cell.X); (1, 1, Cell.O); (0, 1, Cell.X); (2, 2, Cell.O)]
                 new_game in
  let g' := final_state (make_move 0 2 Cell.X g) in
  (game_over g = false ∧ Cell.X = current_turn g ∧
   cell_at (board g) (0, 2) = Some Cell.EMPTY ∧
   board_update (board g) (0, 2) Cell.X = Some (board g') ∧
   cell_at (board g') (0, 2) = Some Cell.X) ∧
  ((game_over g' = true ∧ is_Some (winner g')) ↔
     (∃ line, line ∈ WIN_LINES ∧ monochrome (board g') line)) ∧
  ((game_over g' = true ∧ winner g' = None) ↔
     (full (board g') ∧
      ∀ line, line ∈ WIN_LINES → ¬ monochrome (board g') line)) ∧
  (∀ w, winner g' = Some w → w = Cell.X ∧ has_line (board g') Cell.X) ∧
  (game_over g' = false ↔
     (¬ full (board g') ∧
      ∀ line, line ∈ WIN_LINES → ¬ monochrome (board g') line)).
Proof.
  apply (terminal_iff_line_or_full
           (after [(0, 0, Cell.X); (1, 1, Cell.O); (0, 1, Cell.X); (2, 2, Cell.O)]
                  new_game) 0 2 Cell.X).
  - apply (reach_move _ 2 2 Cell.O), (reach_move _ 0 1 Cell.X),
      (reach_move _ 1 1 Cell.O), (reach_move _ 0 0 Cell.X), reach_new.
  - reflexivity.
Defined.

(** C5: in every game reached by play, the number of [X] cells minus
    the number of [O] cells is 0 or 1. *)
Theorem marks_balanced g :
  reachable g →
  Z.of_nat (marks Cell.X (board g)) - Z.of_nat (marks Cell.O (board g)) = 0 ∨
  Z.of_nat (marks Cell.X (board g)) - Z.of_nat (marks Cell.O (board g)) = 1.
Proof.
  intros Hreach.
  destruct (reachable_invariant g Hreach) as (_ & _ & _ & [Hb|Hb]);
    rewrite Hb; lia.
Qed.

Lemma marks_balanced_witness :
  let g := after [(1, 1, Cell.X); (0, 0, Cell.O); (2, 0, Cell.X)] new_game in
  Z.of_nat (marks Cell.X (board g)) - Z.of_nat (marks Cell.O (board g)) = 0 ∨
  Z.of_nat (marks Cell.X (board g)) - Z.of_nat (marks Cell.O (board g)) = 1.
Proof.
  apply (marks_balanced
           (after [(1, 1, Cell.X); (0, 0, Cell.O); (2, 0, Cell.X)] new_game)).
  apply (reach_move _ 2 0 Cell.X), (reach_move _ 0 0 Cell.O),
    (reach_move _ 1 1 Cell.X), reach_new.
Defined.

(** C9: in every game reached by play the turn is [X] or [O], never
    [EMPTY]; so a call of [make_move] with the [EMPTY] mark, at a row
    and column in [0, 2], answers [False], and with any row and column
    it leaves the game as it was. *)
Theorem turn_is_a_mark g :
  reachable g →
  (current_turn g = Cell.X ∨ current_turn g = Cell.O) ∧
  (∀ row col, 0 ≤ row ≤ 2 → 0 ≤ col ≤ 2 →
     make_move row col Cell.EMPTY g = Return false g) ∧
  (∀ row col, final_state (make_move row col Cell.EMPTY g) = g).
Proof.
  intros Hreach.
  destruct (reachable_invariant g Hreach) as (Hwf & Hturn & _).
  split; [done|]. split.
  - intros row col Hrow Hcol.
    destruct (make_move_in_range_outcomes row col Cell.EMPTY g Hwf Hrow Hcol)
      as [Hr|(b' & _ & Hm & _)]; [done|].
    destruct Hturn; congruence.
  - intros row col.
    destruct (make_move_outcomes row col Cell.EMPTY g Hwf)
      as [->|[->|(b' & _ & Hm & _)]]; [done|done|].
    destruct Hturn; congruence.
Qed.

Lemma turn_is_a_mark_witness :
  let g := after [(1, 1, Cell.X)] new_game in
  (current_turn g = Cell.X ∨ current_turn g = Cell.O) ∧
  (∀ row col, 0 ≤ row ≤ 2 → 0 ≤ col ≤ 2 →
     make_move row col Cell.EMPTY g = Return false g) ∧
  (∀ row col, final_state (make_move row col Cell.EMPTY g) = g).
Proof.
  apply (turn_is_a_mark (after [(1, 1, Cell.X)] new_game)).
  apply (reach_move _ 1 1 Cell.X), reach_new.
Defined.

(** ** The move selector reads and never writes *)

Lemma read_only_ret {A} (a : A) : read_only (ret a).
Proof. done. Qed.

Lemma read_only_get {A} (f : TicTacToe → A) : read_only (get f).
Proof. done. Qed.

Lemma read_only_or_raise {A} e (o : option A) : read_only (or_raise e o).
Proof. intros s. unfold or_raise. by destruct o. Qed.

Lemma read_only_bind {A B} (m : M A) (k : A → M B) :
  read_only m → (∀ a, read_only (k a)) → read_only (bind m k).
Proof.
  intros Hm Hk s. unfold bind. specialize (Hm s).
  destruct (m s) as [a s'|e s']; cbn in Hm; subst s'; [apply Hk|done].
Qed.

Lemma read_only_board_getitem p : read_only (board_getitem p).
Proof.
  apply read_only_bind; [apply read_only_get|].
  intros b. apply read_only_or_raise.
Qed.

Create HintDb read_only.

#[local] Hint Resolve read_only_ret read_only_get read_only_or_raise
  read_only_board_getitem : read_only.

Ltac read_only_step :=
  first
    [ apply read_only_bind; [|intros ?]
    | match goal with
      | |- read_only (if ?c then _ else _) => destruct c
      | |- read_only (match ?o with Some _ => _ | None => _ end) => destruct o
      end
    | solve [auto with read_only] ].

Lemma read_only_cells_of line : read_only (cells_of line).
Proof. induction line as [|p line IH]; cbn; repeat read_only_step. Qed.

Lemma read_only_find_winning_move_from m lines :
  read_only (find_winning_move_from m lines).
Proof.
  induction lines as [|line lines IH]; cbn; repeat read_only_step.
  apply read_only_cells_of.
Qed.

Lemma read_only_first_empty ps : read_only (first_empty ps).
Proof. induction ps as [|p ps IH]; cbn; repeat read_only_step. Qed.

#[local] Hint Resolve read_only_find_winning_move_from read_only_first_empty
  : read_only.

Lemma read_only_bot_move shuffle : read_only (bot_move shuffle).
Proof.
  unfold bot_move, _find_winning_move. repeat read_only_step.
Qed.

(** C8: a call of [bot_move] leaves the game as it was: the board, the
    player bindings, the turn, the bot flag, the terminal flag and the
    winner are those of before the call, whatever the game, whatever the
    shuffle, and whether the call returns or raises. *)
Theorem bot_move_leaves_game_unchanged shuffle g :
  let g' := final_state (bot_move shuffle g) in
  g' = g ∧
  board g' = board g ∧ player_x g' = player_x g ∧
  player_o g' = player_o g ∧ current_turn g' = current_turn g ∧
  is_vs_bot g' = is_vs_bot g ∧ game_over g' = game_over g ∧
  winner g' = winner g.
Proof.
  cbn zeta. by rewrite (read_only_bot_move shuffle g).
Qed.

(** ** The scan for a line with two marks and a gap *)

Lemma good_lines : Forall good_line WIN_LINES.
Proof.
  apply Forall_forall. intros line Hin. split; [|split].
  - revert Hin. unfold WIN_LINES. rewrite !elem_of_cons, elem_of_nil.
    intros H; repeat destruct H as [->|H]; done.
  - revert Hin. unfold WIN_LINES. rewrite !elem_of_cons, elem_of_nil.
    intros H; repeat destruct H as [->|H]; try done;
      by apply (bool_decide_unpack _).
  - apply Forall_forall. intros p Hp. by eapply WIN_LINES_in_range.
Qed.

Lemma cells_of_run line s :
  wf_board (board s) → Forall in_range line →
  ∃ vs, cells_of line s = Return vs s ∧
        Forall2 (λ p v, cell_at (board s) p = Some v) line vs.
Proof.
  intros Hwf. induction 1 as [|p line Hp Hline (vs & Hrun & Hvs)].
  - exists []. by split.
  - destruct (board_getitem_in_range p s Hwf Hp) as (v & Hv & Hget).
    exists (v :: vs). split; [|by constructor].
    cbn. unfold bind. by rewrite Hget, Hrun.
Qed.

(** The gap of a line is unique. *)
Lemma gap_in_unique b m line p q :
  m ≠ Cell.EMPTY → gap_in b m line p → gap_in b m line q → p = q.
Proof.
  intros Hm (Hp & Hpe & _) (_ & _ & Hq).
  destruct (decide (p = q)) as [|Hne]; [done|].
  specialize (Hq p Hp Hne). congruence.
Qed.

(** One turn of the loop of [_find_winning_move], on the three cells
    read from a line. *)
Lemma line_scan b m p1 p2 p3 a1 a2 a3 :
  m ≠ Cell.EMPTY → NoDup [p1; p2; p3] →
  cell_at b p1 = Some a1 → cell_at b p2 = Some a2 → cell_at b p3 = Some a3 →
  if (count m [a1; a2; a3] =? 2)%nat && (count Cell.EMPTY [a1; a2; a3] =? 1)%nat
  then ∃ idx p, index Cell.EMPTY [a1; a2; a3] = Some idx ∧
                getitem [p1; p2; p3] (Z.of_nat idx) = Some p ∧
                gap_in b m [p1; p2; p3] p
  else ∀ q, ¬ gap_in b m [p1; p2; p3] q.
Proof.
  intros Hm Hnd H1 H2 H3.
  assert (p1 ≠ p2 ∧ p1 ≠ p3 ∧ p2 ≠ p3) as (H12 & H13 & H23).
  { apply NoDup_cons in Hnd as [Hn1 Hnd]. apply NoDup_cons in Hnd as [Hn2 _].
    rewrite !elem_of_cons, elem_of_nil in Hn1.
    rewrite !elem_of_cons, elem_of_nil in Hn2. tauto. }
  destruct ((count m [a1; a2; a3] =? 2)%nat
            && (count Cell.EMPTY [a1; a2; a3] =? 1)%nat) eqn:Hcond.
  - destruct m, a1, a2, a3; try done; vm_compute in Hcond; try discriminate;
      (eexists _, _; split; [reflexivity|]; split; [reflexivity|]);
      (split; [rewrite !elem_of_cons; tauto|]; split; [done|]);
      intros q Hq Hne; rewrite !elem_of_cons, elem_of_nil in Hq;
      destruct Hq as [->|[->|[->|[]]]]; done.
  - intros q (Hq & Hqe & Hoth).
    assert (∀ p a, p ∈ [p1; p2; p3] → cell_at b p = Some a →
                   p = q ∧ a = Cell.EMPTY ∨ q ≠ p ∧ a = m) as Hcase.
    { intros p a Hp Ha. destruct (decide (p = q)) as [->|Hne].
      - left. split; [done|]. congruence.
      - right. split; [done|]. specialize (Hoth p Hp Hne). congruence. }
    assert (p1 ∈ [p1; p2; p3] ∧ p2 ∈ [p1; p2; p3] ∧ p3 ∈ [p1; p2; p3])
      as (Hi1 & Hi2 & Hi3) by (rewrite !elem_of_cons; tauto).
    rewrite !elem_of_cons, elem_of_nil in Hq.
    destruct (Hcase p1 a1 Hi1 H1) as [[? ?]|[? ?]],
      (Hcase p2 a2 Hi2 H2) as [[? ?]|[? ?]],
      (Hcase p3 a3 Hi3 H3) as [[? ?]|[? ?]];
      subst a1 a2 a3; try congruence; try tauto;
      destruct m; try done; vm_compute in Hcond; discriminate.
Qed.

(** The scan returns the gap of the first line, in the order of the
    list, that has one, and nothing when no line has one. *)
Lemma find_winning_move_from_spec m lines s :
  wf_board (board s) → m ≠ Cell.EMPTY → Forall good_line lines →
  ∃ o, find_winning_move_from m lines s = Return o s ∧
    match o with
    | Some p =>
        ∃ pre line post, lines = pre ++ line :: post ∧
          (∀ l q, l ∈ pre → ¬ gap_in (board s) m l q) ∧
          gap_in (board s) m line p
    | None => ∀ l q, l ∈ lines → ¬ gap_in (board s) m l q
    end.
Proof.
  intros Hwf Hm. induction 1 as [|line lines Hgood Hlines (o & Hrun & Ho)].
  - exists None. split; [done|]. intros l q Hl. by apply elem_of_nil in Hl.
  - destruct Hgood as (Hlen & Hnd & Hrange).
    destruct (cells_of_run line s Hwf Hrange) as (vs & Hcells & Hvs).
    destruct line as [|p1 [|p2 [|p3 [|]]]]; try discriminate.
    apply Forall2_cons_inv_l in Hvs as (a1 & vs1 & H1 & Hvs & ->).
    apply Forall2_cons_inv_l in Hvs as (a2 & vs2 & H2 & Hvs & ->).
    apply Forall2_cons_inv_l in Hvs as (a3 & vs3 & H3 & Hvs & ->).
    apply Forall2_nil_inv_l in Hvs as ->.
    pose proof (line_scan (board s) m p1 p2 p3 a1 a2 a3 Hm Hnd H1 H2 H3)
      as Hscan.
    cbn [find_winning_move_from]. unfold bind at 1. rewrite Hcells.
    destruct ((count m [a1; a2; a3] =? 2)%nat
              && (count Cell.EMPTY [a1; a2; a3] =? 1)%nat).
    + destruct Hscan as (idx & p & Hidx & Hp & Hgap).
      exists (Some p). unfold bind, or_raise. rewrite Hidx, Hp.
      split; [done|]. exists [], [p1; p2; p3], lines.
      split; [done|]. split; [|done]. intros l q Hl. by apply elem_of_nil in Hl.
    + exists o. split; [done|]. destruct o as [p|].
      * destruct Ho as (pre & line & post & -> & Hpre & Hgap).
        exists ([p1; p2; p3] :: pre), line, post.
        split; [done|]. split; [|done].
        intros l q [->|Hl]%elem_of_cons; [apply Hscan|by apply Hpre].
      * intros l q [->|Hl]%elem_of_cons; [apply Hscan|by apply Ho].
Qed.

Lemma first_empty_spec ps s :
  wf_board (board s) → Forall in_range ps →
  ∃ o, first_empty ps s = Return o s ∧
    match o with
    | Some p => p ∈ ps ∧ cell_at (board s) p = Some Cell.EMPTY
    | None => ∀ p, p ∈ ps → cell_at (board s) p ≠ Some Cell.EMPTY
    end.
Proof.
  intros Hwf. induction 1 as [|p ps Hp Hps (o & Hrun & Ho)].
  - exists None. split; [done|]. intros p Hp. by apply elem_of_nil in Hp.
  - destruct (board_getitem_in_range p s Hwf Hp) as (v & Hv & Hget).
    cbn. unfold bind. rewrite Hget, eqb_decide.
    destruct (decide (v = Cell.EMPTY)) as [->|Hne];
      [rewrite (bool_decide_eq_true_2 (Cell.EMPTY = Cell.EMPTY)) by done
      |rewrite (bool_decide_eq_false_2 (v = Cell.EMPTY)) by done].
    + exists (Some p). split; [done|]. split; [apply list_elem_of_here|done].
    + exists o. split; [done|]. destruct o as [q|].
      * destruct Ho. split; [by apply list_elem_of_further|done].
      * intros q [->|Hq]%elem_of_cons; [congruence|by apply Ho].
Qed.

Lemma gap_in_WIN_LINES_empty b m line p :
  line ∈ WIN_LINES → gap_in b m line p →
  in_range p ∧ cell_at b p = Some Cell.EMPTY.
Proof.
  intros Hline (Hp & He & _). split; [by eapply WIN_LINES_in_range|done].
Qed.

(** ** Properties of [bot_move] *)

(** C6: on a game that is not terminal with [O] to move, let [line] be
    the first of the eight lines, in the order of [WIN_LINES] (rows top
    to bottom, columns left to right, the two diagonals), in which [O]
    holds two cells and the third, [p], is empty: [bot_move] returns
    [p], whatever the shuffle, and whatever the block, centre, corner
    and edge rules would choose. *)
Theorem bot_move_completes_first_line shuffle g i line p :
  wf_board (board g) → game_over g = false → current_turn g = Cell.O →
  WIN_LINES !! i = Some line → gap_in (board g) Cell.O line p →
  (∀ j l q, (j < i)%nat → WIN_LINES !! j = Some l →
            ¬ gap_in (board g) Cell.O l q) →
  bot_move shuffle g = Return (Some p) g.
Proof.
  intros Hwf Hover Hturn Hi Hgap Hfirst.
  destruct (find_winning_move_from_spec Cell.O WIN_LINES g Hwf)
    as (o & Hrun & Ho); [done|apply good_lines|].
  assert (o = Some p) as ->.
  { destruct o as [p'|].
    - destruct Ho as (pre & line' & post & Hsplit & Hpre & Hgap').
      assert (WIN_LINES !! length pre = Some line') as Hk
        by (rewrite Hsplit; apply list_lookup_middle; done).
      destruct (Nat.lt_trichotomy (length pre) i) as [Hlt|[Heq|Hgt]].
      + by destruct (Hfirst (length pre) line' p' Hlt Hk).
      + subst i. rewrite Hk in Hi. injection Hi as ->.
        f_equal. by apply (gap_in_unique (board g) Cell.O line).
      + rewrite Hsplit in Hi. rewrite lookup_app_l in Hi by lia.
        apply list_elem_of_lookup_2 in Hi. by destruct (Hpre line p Hi).
    - apply list_elem_of_lookup_2 in Hi. by destruct (Ho line p Hi). }
  unfold bot_move, _find_winning_move, get.
  unfold bind at 1. rewrite Hover. unfold bind at 1. rewrite Hturn.
  cbn [orb negb Cell.eqb]. unfold bind at 1. by rewrite Hrun.
Qed.

Lemma bot_move_completes_first_line_witness :
  let g := mkGame [[Cell.O; Cell.X; Cell.EMPTY];
                   [Cell.EMPTY; Cell.X; Cell.EMPTY];
                   [Cell.O; Cell.EMPTY; Cell.X]]
                  None None Cell.O false false None in
  bot_move reverse g = Return (Some (1, 0)) g.
Proof.
  apply (bot_move_completes_first_line reverse
           (mkGame [[Cell.O; Cell.X; Cell.EMPTY];
                    [Cell.EMPTY; Cell.X; Cell.EMPTY];
                    [Cell.O; Cell.EMPTY; Cell.X]]
                   None None Cell.O false false None)
           3%nat [(0, 0); (1, 0); (2, 0)] (1, 0)).
  - split; [reflexivity|]. by repeat constructor.
  - reflexivity.
  - reflexivity.
  - reflexivity.
  - split; [rewrite !elem_of_cons; tauto|]. split; [reflexivity|].
    intros q Hq Hne. rewrite !elem_of_cons, elem_of_nil in Hq.
    destruct Hq as [->|[->|[->|[]]]]; done.
  - intros j l q Hj Hl (Hq & He & Hoth). cbn [board] in He, Hoth.
    destruct j as [|[|[|j]]]; [| | |lia]; injection Hl as <-;
      rewrite !elem_of_cons, elem_of_nil in Hq;
      destruct Hq as [->|[->|[->|[]]]]; vm_compute in He; try discriminate.
    + specialize (Hoth (0, 1) ltac:(rewrite !elem_of_cons; tauto) ltac:(done)).
      vm_compute in Hoth. discriminate.
    + specialize (Hoth (1, 1) ltac:(rewrite !elem_of_cons; tauto) ltac:(done)).
      vm_compute in Hoth. discriminate.
    + specialize (Hoth (1, 1) ltac:(rewrite !elem_of_cons; tauto) ltac:(done)).
      vm_compute in Hoth. discriminate.
    + specialize (Hoth (2, 2) ltac:(rewrite !elem_of_cons; tauto) ltac:(done)).
      vm_compute in Hoth. discriminate.
Defined.

Section Selector.

(** What [random.shuffle] makes of a list: a permutation of it. *)
Variable shuffle : list pos → list pos.
Hypothesis shuffle_permutes : ∀ l, shuffle l ≡ₚ l.

Lemma shuffle_elem_of p l : p ∈ shuffle l ↔ p ∈ l.
Proof. by rewrite (shuffle_permutes l). Qed.

Lemma shuffle_in_range l :
  (∀ p, p ∈ l → in_range p) → Forall in_range (shuffle l).
Proof.
  intros Hl. apply Forall_forall. intros p Hp. by apply Hl, shuffle_elem_of.
Qed.

(** A chosen move is an empty cell of the board, and is a move. *)
Lemma chosen_move b (over : bool) p :
  over = false → in_range p → cell_at b p = Some Cell.EMPTY →
  (Some p = None ↔
     over = true ∨ ∀ q, in_range q → cell_at b q ≠ Some Cell.EMPTY) ∧
  (∀ q, Some p = Some q → in_range q ∧ cell_at b q = Some Cell.EMPTY).
Proof.
  intros Hover Hp He. split; [|by intros q [= <-]].
  split; [done|]. intros [Ho|Hnone]; [congruence|]. by destruct (Hnone p Hp).
Qed.

Lemma found_winning_move g m (o : option pos) :
  match o with
  | Some p =>
      ∃ pre line post, WIN_LINES = pre ++ line :: post ∧
        (∀ l q, l ∈ pre → ¬ gap_in (board g) m l q) ∧
        gap_in (board g) m line p
  | None => True
  end →
  ∀ p, o = Some p → in_range p ∧ cell_at (board g) p = Some Cell.EMPTY.
Proof.
  intros Ho p ->. destruct Ho as (pre & line & post & Hsplit & _ & Hgap).
  apply (gap_in_WIN_LINES_empty _ m line); [|done].
  rewrite Hsplit. apply elem_of_app. right. apply list_elem_of_here.
Qed.

(** C7: with [O] to move, [bot_move] returns; it returns no coordinate
    exactly when the game is terminal or no cell of the board is empty,
    so it returns one whenever the game is in progress and a cell is
    empty; and the coordinate it returns is an empty cell of the
    board. *)
Theorem bot_move_some_iff g :
  wf_board (board g) → current_turn g = Cell.O →
  ∃ o, bot_move shuffle g = Return o g ∧
    (o = None ↔
       game_over g = true ∨
       ∀ p, in_range p → cell_at (board g) p ≠ Some Cell.EMPTY) ∧
    (∀ p, o = Some p → in_range p ∧ cell_at (board g) p = Some Cell.EMPTY).
Proof.
  intros Hwf Hturn.
  unfold bot_move, _find_winning_move, get.
  unfold bind at 1. destruct (game_over g) eqn:Hover.
  { exists None. unfold bind at 1. split; [done|].
    split; [|done]. split; [by left|done]. }
  unfold bind at 1. rewrite Hturn. cbn [orb negb Cell.eqb].
  destruct (find_winning_move_from_spec Cell.O WIN_LINES g Hwf)
    as (o1 & Hrun1 & Ho1); [done|apply good_lines|].
  unfold bind at 1. rewrite Hrun1.
  destruct o1 as [p1|].
  { exists (Some p1). split; [done|].
    destruct (found_winning_move g Cell.O (Some p1) Ho1 p1 eq_refl).
    by apply chosen_move. }
  destruct (find_winning_move_from_spec Cell.X WIN_LINES g Hwf)
    as (o2 & Hrun2 & Ho2); [done|apply good_lines|].
  unfold bind at 1. rewrite Hrun2.
  destruct o2 as [p2|].
  { exists (Some p2). split; [done|].
    destruct (found_winning_move g Cell.X (Some p2) Ho2 p2 eq_refl).
    by apply chosen_move. }
  assert (in_range (1, 1)) as Hc by (split; cbn; lia).
  destruct (board_getitem_in_range (1, 1) g Hwf Hc) as (v & Hv & Hget).
  unfold bind at 1. rewrite Hget, eqb_decide.
  destruct (decide (v = Cell.EMPTY)) as [->|Hne];
    [rewrite (bool_decide_eq_true_2 (Cell.EMPTY = Cell.EMPTY)) by done
    |rewrite (bool_decide_eq_false_2 (v = Cell.EMPTY)) by done].
  { exists (Some (1, 1)). split; [done|]. by apply chosen_move. }
  destruct (first_empty_spec (shuffle corners) g Hwf)
    as (o3 & Hrun3 & Ho3); [apply shuffle_in_range, corners_in_range|].
  unfold bind at 1. rewrite Hrun3.
  destruct o3 as [p3|].
  { exists (Some p3). split; [done|]. destruct Ho3 as [Hin He].
    apply chosen_move; [done| |done].
    by apply corners_in_range, shuffle_elem_of. }
  destruct (first_empty_spec (shuffle edges) g Hwf)
    as (o4 & Hrun4 & Ho4); [apply shuffle_in_range, edges_in_range|].
  unfold bind at 1. rewrite Hrun4.
  destruct o4 as [p4|].
  { exists (Some p4). split; [done|]. destruct Ho4 as [Hin He].
    apply chosen_move; [done| |done].
    by apply edges_in_range, shuffle_elem_of. }
  exists None. split; [done|]. split; [|done].
  split; [|done]. intros _. right. intros p Hp.
  destruct (in_range_kinds p Hp) as [->|[Hk|Hk]].
  - congruence.
  - by apply Ho3, shuffle_elem_of.
  - by apply Ho4, shuffle_elem_of.
Qed.

End Selector.

Lemma bot_move_some_iff_witness :
  let g := after [(1, 1, Cell.X)] new_game in
  ∃ o, bot_move reverse g = Return o g ∧
    (o = None ↔
       game_over g = true ∨
       ∀ p, in_range p → cell_at (board g) p ≠ Some Cell.EMPTY) ∧
    (∀ p, o = Some p → in_range p ∧ cell_at (board g) p = Some Cell.EMPTY).
Proof.
  apply (bot_move_some_iff reverse (λ l, reverse_Permutation l)
           (after [(1, 1, Cell.X)] new_game)).
  - split; [reflexivity|]. vm_compute. by repeat constructor.
  - reflexivity.
Defined.

(** ** Scenarios of the specification, run on the model *)

(** [X] plays (0,0), [O] (1,1), [X] (0,1), [O] (2,2), [X] (0,2): the
    top row is won, the game is terminal, the winner is [X]. *)
Example scenario_row_win :
  play [(0, 0, Cell.X); (1, 1, Cell.O); (0, 1, Cell.X); (2, 2, Cell.O);
        (0, 2, Cell.X)] new_game =
  Return [true; true; true; true; true]
    (mkGame [[Cell.X; Cell.X; Cell.X];
             [Cell.EMPTY; Cell.O; Cell.EMPTY];
             [Cell.EMPTY; Cell.EMPTY; Cell.O]]
            None None Cell.X false true (Some Cell.X)).
Proof. vm_compute. reflexivity. Qed.

(** Nine moves, no line: terminal, no winner. *)
Example scenario_draw :
  play [(0, 0, Cell.X); (0, 1, Cell.O); (0, 2, Cell.X);
        (1, 1, Cell.O); (1, 0, Cell.X); (1, 2, Cell.O);
        (2, 1, Cell.X); (2, 0, Cell.O); (2, 2, Cell.X)] new_game =
  Return [true; true; true; true; true; true; true; true; true]
    (mkGame [[Cell.X; Cell.O; Cell.X];
             [Cell.X; Cell.O; Cell.O];
             [Cell.O; Cell.X; Cell.X]]
            None None Cell.X false true None).
Proof. vm_compute. reflexivity. Qed.

(** A negative index counts from the end of the list, and an index
    outside the list raises on a game still open. *)
Example scenario_python_indices :
  make_move (-1) (-1) Cell.X new_game =
  Return true
    (mkGame [[Cell.EMPTY; Cell.EMPTY; Cell.EMPTY];
             [Cell.EMPTY; Cell.EMPTY; Cell.EMPTY];
             [Cell.EMPTY; Cell.EMPTY; Cell.X]]
            None None Cell.O false false None) ∧
  make_move 3 0 Cell.X new_game = Raise IndexError new_game.
Proof. split; vm_compute; reflexivity. Qed.

(** With no line to complete or to block and the centre free, the
    selector takes the centre. *)
Example scenario_centre :
  let g := after [(0, 0, Cell.X)] new_game in
  bot_move reverse g = Return (Some (1, 1)) g.
Proof. vm_compute. reflexivity. Qed.

(** * Further properties of [game.py] *)

(** ** Indices of [make_move] *)

Lemma slot_None_iff p : slot p = None ↔ ¬ py_in_range p.
Proof.
  destruct p as [r c]. unfold slot, py_in_range. cbn [fst snd].
  destruct (py_index_3_cases r) as [[Hr Hr']|[[Hr Hr']|[[Hr Hr']|[Hr Hr']]]];
    destruct (py_index_3_cases c) as [[Hc Hc']|[[Hc Hc']|[[Hc Hc']|[Hc Hc']]]];
    rewrite Hr, ?Hc; cbn; rewrite ?Hc; cbn; split; try done; try tauto; lia.
Qed.

Lemma cell_at_None_iff b p :
  wf_board b → cell_at b p = None ↔ ¬ py_in_range p.
Proof.
  intros Hwf. rewrite <- slot_None_iff. split.
  - intros Hnone. destruct (slot p) as [ij|] eqn:Hs; [|done].
    destruct (cell_at_slot_Some b p ij Hwf Hs). congruence.
  - by apply cell_at_slot_None.
Qed.

Lemma slot_minus_3 r c :
  0 ≤ r ≤ 2 → 0 ≤ c ≤ 2 →
  slot (r - 3, c) = slot (r, c) ∧ slot (r, c - 3) = slot (r, c) ∧
  slot (r - 3, c - 3) = slot (r, c).
Proof.
  intros Hr Hc.
  assert (r = 0 ∨ r = 1 ∨ r = 2) as [->|[->| ->]] by lia;
    assert (c = 0 ∨ c = 1 ∨ c = 2) as [->|[->| ->]] by lia; done.
Qed.

(** Positions that denote the same row and column read and write the
    same cell. *)
Lemma slot_eq_board_ops b p q v :
  wf_board b → slot p = slot q →
  cell_at b p = cell_at b q ∧ board_update b p v = board_update b q v.
Proof.
  intros Hwf. board_shape b. destruct p as [r c], q as [r' c'].
  index_cases r Hr; index_cases c Hc; index_cases r' Hr'; index_cases c' Hc';
    board_ops; rewrite ?Hr, ?Hc, ?Hr', ?Hc'; cbn;
    rewrite ?Hc, ?Hc'; cbn; rewrite ?Hc, ?Hc'; cbn; try done.
Qed.

Lemma slot_eq_make_move g p q m :
  wf_board (board g) → slot p = slot q →
  make_move p.1 p.2 m g = make_move q.1 q.2 m g.
Proof.
  intros Hwf Hs. rewrite !make_move_run by done.
  destruct p as [r c], q as [r' c']. cbn [fst snd].
  destruct (slot_eq_board_ops (board g) (r, c) (r', c') m Hwf Hs) as [-> ->].
  done.
Qed.

(** X1: a move that was accepted is rejected when made again: the same
    call on the state it left answers [False] and changes nothing. *)
Theorem make_move_twice g row col m g' :
  wf_board (board g) →
  make_move row col m g = Return true g' →
  make_move row col m g' = Return false g'.
Proof.
  intros Hwf Hmove.
  destruct (make_move_outcomes row col m g Hwf)
    as [Hr|[Hr|(b' & Hover & Hm & Hcell & Hup & Hr)]]; [congruence|congruence|].
  rewrite Hr in Hmove. injection Hmove as <-.
  pose proof (board_update_wf _ _ _ _ Hwf Hup) as Hwf'.
  pose proof (cell_at_board_update_same _ _ _ _ Hwf Hup) as Hnew.
  destruct (settle_frame m (with_board b' g)) as (Hb & _).
  cbn [board with_board] in Hb.
  rewrite make_move_run by (by rewrite Hb).
  rewrite Hb, Hnew. unfold settle. cbn [board with_board].
  destruct (bool_decide (has_line b' m)); [done|].
  destruct (bool_decide (full b')); [done|].
  cbn. rewrite Hover, <- Hm. by destruct m.
Qed.

Lemma make_move_twice_witness :
  let g' := final_state (make_move 1 (-2) Cell.X new_game) in
  make_move 1 (-2) Cell.X g' = Return false g'.
Proof.
  apply (make_move_twice new_game 1 (-2) Cell.X);
    [apply wf_board_new | reflexivity].
Defined.

(** X2: on a game that is not terminal, [make_move] raises exactly when
    the row or the column is not an index of a list of three (outside
    [-3, 2]); what it raises is [IndexError], and the game is left as it
    was.  A terminal game never raises. *)
Theorem make_move_raises_iff g row col m :
  wf_board (board g) →
  ((∃ e g', make_move row col m g = Raise e g') ↔
     game_over g = false ∧ ¬ py_in_range (row, col)) ∧
  (∀ e g', make_move row col m g = Raise e g' → e = IndexError ∧ g' = g).
Proof.
  intros Hwf. rewrite <- (cell_at_None_iff (board g)) by done.
  rewrite make_move_run by done.
  destruct (game_over g).
  { split; [|done]. split; [by intros (e & g' & [=])|by intros [[=] _]]. }
  destruct (cell_at (board g) (row, col)) as [v|] eqn:Hv.
  - assert (is_Some (board_update (board g) (row, col) m)) as [b' Hb']
      by (apply board_update_is_Some; [done|by rewrite Hv]).
    rewrite Hb'.
    destruct (negb (Cell.eqb v Cell.EMPTY));
      [split; [split; [by intros (e & g' & [=])|by intros [_ [=]]]|done]|].
    destruct (negb (Cell.eqb m (current_turn g)));
      (split; [split; [by intros (e & g' & [=])|by intros [_ [=]]]|done]).
  - split; [split; [done|by eauto]|]. by intros e g' [= <- <-].
Qed.

Lemma make_move_raises_iff_witness :
  ((∃ e g', make_move 3 0 Cell.X new_game = Raise e g') ↔
     game_over new_game = false ∧ ¬ py_in_range (3, 0)) ∧
  (∀ e g', make_move 3 0 Cell.X new_game = Raise e g' →
           e = IndexError ∧ g' = new_game).
Proof.
  apply (make_move_raises_iff new_game 3 0 Cell.X). apply wf_board_new.
Defined.

(** X3: a negative row or column counts from the end of the board:
    with [r] and [c] in [0, 2], the calls at [r - 3] or [c - 3] do what
    the call at [r], [c] does. *)
Theorem make_move_negative_index g r c m :
  wf_board (board g) → 0 ≤ r ≤ 2 → 0 ≤ c ≤ 2 →
  make_move (r - 3) c m g = make_move r c m g ∧
  make_move r (c - 3) m g = make_move r c m g ∧
  make_move (r - 3) (c - 3) m g = make_move r c m g.
Proof.
  intros Hwf Hr Hc. destruct (slot_minus_3 r c Hr Hc) as (H1 & H2 & H3).
  split; [|split].
  - exact (slot_eq_make_move g (r - 3, c) (r, c) m Hwf H1).
  - exact (slot_eq_make_move g (r, c - 3) (r, c) m Hwf H2).
  - exact (slot_eq_make_move g (r - 3, c - 3) (r, c) m Hwf H3).
Qed.

Lemma make_move_negative_index_witness :
  make_move (2 - 3) 0 Cell.X new_game = make_move 2 0 Cell.X new_game ∧
  make_move 2 (0 - 3) Cell.X new_game = make_move 2 0 Cell.X new_game ∧
  make_move (2 - 3) (0 - 3) Cell.X new_game = make_move 2 0 Cell.X new_game.
Proof.
  apply (make_move_negative_index new_game 2 0 Cell.X);
    [apply wf_board_new | lia | lia].
Defined.

(** ** How a game ends *)

Lemma not_full_new : ¬ full (board new_game).
Proof. intros H. apply (bool_decide_eq_true_2 _) in H. by vm_compute in H. Qed.

Lemma outcome_invariant_make_move g row col m :
  invariant g → outcome_invariant g →
  outcome_invariant (final_state (make_move row col m g)).
Proof.
  intros (Hwf & Hturn & Hopen & _) Hout.
  destruct (make_move_outcomes row col m g Hwf)
    as [->|[->|(b' & Hover & Hm & Hcell & Hup & ->)]]; [done|done|].
  cbn [final_state].
  destruct (Hopen Hover) as (Hwin & HnX & HnO & _).
  assert (m = Cell.X ∨ m = Cell.O) as Hmark by (by rewrite Hm).
  assert (∀ w, w ≠ m → (w = Cell.X ∨ w = Cell.O) → ¬ has_line b' w) as Hold.
  { intros w Hw Hxo Hlw.
    pose proof (has_line_before_update _ _ _ _ _ Hwf Hup Hw Hlw).
    destruct Hxo; by subst w. }
  unfold outcome_invariant, settle. cbn [board with_board].
  destruct (decide (has_line b' m)) as [Hl|Hl];
    [rewrite (bool_decide_eq_true_2 _ Hl)
    |rewrite (bool_decide_eq_false_2 _ Hl)].
  { cbn. split; [by intros w [= <-]|]. by split. }
  destruct (decide (full b')) as [Hf|Hf];
    [rewrite (bool_decide_eq_true_2 _ Hf)
    |rewrite (bool_decide_eq_false_2 _ Hf)].
  { cbn. split; [done|]. split; [|done]. intros _ _. split; [done|].
    destruct Hmark as [-> | ->].
    - split; [done|]. apply Hold; [done|by right].
    - split; [|done]. apply Hold; [done|by left]. }
  cbn. rewrite Hover, Hwin. by split; [|split].
Qed.

Lemma reachable_outcome_invariant g : reachable g → outcome_invariant g.
Proof.
  induction 1 as [|g p _ IH|g p _ IH|g _ IH|g row col m Hg IH].
  - split; [done|]. split; [done|]. intros _. apply not_full_new.
  - exact IH.
  - exact IH.
  - exact IH.
  - apply outcome_invariant_make_move; [by apply reachable_invariant|done].
Qed.

Lemma no_line_no_monochrome b :
  ¬ has_line b Cell.X → ¬ has_line b Cell.O →
  ∀ line, line ∈ WIN_LINES → ¬ monochrome b line.
Proof.
  intros HnX HnO line Hin (w & Hw & Hown).
  assert (has_line b w) by (apply has_line_exists; eauto).
  by destruct w.
Qed.

(** X4: in a game reached by play, a winner is recorded only on a
    terminal game and is [X] or [O], holding a winning line, with the
    turn left on the winner; a terminal game without winner has a full
    board and no monochromatic line. *)
Theorem recorded_outcome_is_on_the_board g :
  reachable g →
  (∀ w, winner g = Some w →
        game_over g = true ∧ (w = Cell.X ∨ w = Cell.O) ∧
        has_line (board g) w ∧ current_turn g = w) ∧
  (game_over g = true → winner g = None →
   full (board g) ∧ ∀ line, line ∈ WIN_LINES → ¬ monochrome (board g) line).
Proof.
  intros Hreach.
  destruct (reachable_outcome_invariant g Hreach) as (Hwin & Hdraw & _).
  split; [done|]. intros Hover Hnone.
  destruct (Hdraw Hover Hnone) as (Hfull & HnX & HnO).
  split; [done|]. by apply no_line_no_monochrome.
Qed.

Lemma recorded_outcome_is_on_the_board_witness :
  let g := after [(0, 0, Cell.X); (1, 1, Cell.O); (0, 1, Cell.X); (2, 2, Cell.O);
                  (0, 2, Cell.X)] new_game in
  (∀ w, winner g = Some w →
        game_over g = true ∧ (w = Cell.X ∨ w = Cell.O) ∧
        has_line (board g) w ∧ current_turn g = w) ∧
  (game_over g = true → winner g = None →
   full (board g) ∧ ∀ line, line ∈ WIN_LINES → ¬ monochrome (board g) line).
Proof.
  apply (recorded_outcome_is_on_the_board
           (after [(0, 0, Cell.X); (1, 1, Cell.O); (0, 1, Cell.X);
                   (2, 2, Cell.O); (0, 2, Cell.X)] new_game)).
  apply (reach_move _ 0 2 Cell.X), (reach_move _ 2 2 Cell.O),
    (reach_move _ 0 1 Cell.X), (reach_move _ 1 1 Cell.O),
    (reach_move _ 0 0 Cell.X), reach_new.
Defined.

Lemma not_full_empty_cell b :
  wf_board b → ¬ full b →
  ∃ p, in_range p ∧ cell_at b p = Some Cell.EMPTY.
Proof.
  intros Hwf Hnf. unfold full in Hnf.
  apply not_Forall_Exists in Hnf; [|apply _].
  apply Exists_exists in Hnf as (p & Hp & Hocc).
  apply in_range_all_positions in Hp.
  exists p. split; [done|].
  destruct (cell_at_in_range b p Hwf Hp) as [v Hv].
  destruct (decide (v = Cell.EMPTY)) as [->|Hne]; [done|].
  destruct Hocc. by exists v.
Qed.

(** A move by the mark whose turn it is, at an empty cell of an open
    game, is accepted. *)
Lemma make_move_empty_cell g p :
  wf_board (board g) → game_over g = false →
  cell_at (board g) p = Some Cell.EMPTY →
  ∃ b', board_update (board g) p (current_turn g) = Some b' ∧
        make_move p.1 p.2 (current_turn g) g =
        Return true (settle (current_turn g) (with_board b' g)).
Proof.
  intros Hwf Hover Hcell. destruct p as [row col]. cbn [fst snd].
  destruct (board_update_is_Some (board g) (row, col) (current_turn g) Hwf)
    as [b' Hb']; [by rewrite Hcell|].
  exists b'. split; [done|].
  rewrite make_move_run, Hover, Hcell, Hb' by done.
  by rewrite !eqb_decide, !bool_decide_eq_true_2.
Qed.

(** X5: a game reached by play that is not terminal has an empty cell,
    and the mark whose turn it is can always move: some row and column
    in [0, 2] are accepted. *)
Theorem open_game_has_a_move g :
  reachable g → game_over g = false →
  ∃ row col g', 0 ≤ row ≤ 2 ∧ 0 ≤ col ≤ 2 ∧
    cell_at (board g) (row, col) = Some Cell.EMPTY ∧
    make_move row col (current_turn g) g = Return true g'.
Proof.
  intros Hreach Hover.
  destruct (reachable_invariant g Hreach) as (Hwf & _).
  destruct (reachable_outcome_invariant g Hreach) as (_ & _ & Hnf).
  destruct (not_full_empty_cell (board g) Hwf (Hnf Hover))
    as ([row col] & [Hrow Hcol] & Hcell).
  destruct (make_move_empty_cell g (row, col) Hwf Hover Hcell)
    as (b' & _ & Hmove).
  by exists row, col, (settle (current_turn g) (with_board b' g)).
Qed.

Lemma open_game_has_a_move_witness :
  let g := after [(1, 1, Cell.X); (0, 0, Cell.O)] new_game in
  ∃ row col g', 0 ≤ row ≤ 2 ∧ 0 ≤ col ≤ 2 ∧
    cell_at (board g) (row, col) = Some Cell.EMPTY ∧
    make_move row col (current_turn g) g = Return true g'.
Proof.
  apply (open_game_has_a_move
           (after [(1, 1, Cell.X); (0, 0, Cell.O)] new_game)).
  - apply (reach_move _ 0 0 Cell.O), (reach_move _ 1 1 Cell.X), reach_new.
  - reflexivity.
Defined.

(** ** Runs of moves *)

(** Each cell holds exactly one of the three values. *)
Lemma marks_total b :
  wf_board b →
  (marks Cell.EMPTY b + marks Cell.X b + marks Cell.O b = 9)%nat.
Proof.
  intros Hwf. board_shape b. unfold marks. cbn [concat app].
  rewrite !count_cons, !count_nil.
  assert (∀ x : Cell.t,
            ((if decide (x = Cell.EMPTY) then 1 else 0)
             + (if decide (x = Cell.X) then 1 else 0)
             + (if decide (x = Cell.O) then 1 else 0) = 1)%nat) as Hone
    by (by intros []).
  repeat match goal with
         | |- context [decide (?x = Cell.EMPTY)] =>
             lazymatch goal with
             | _ : context [decide (x = Cell.X)] |- _ => fail
             | _ => pose proof (Hone x)
             end
         end.
  lia.
Qed.

Lemma after_cons r c m moves g :
  after ((r, c, m) :: moves) g = after moves (final_state (make_move r c m g)).
Proof. done. Qed.

Lemma played_game_over moves g :
  game_over g = true → played moves g = [].
Proof.
  intros Hover. induction moves as [|[[r c] m] moves IH]; [done|].
  cbn [played]. by rewrite make_move_game_over.
Qed.

(** What a run does to the marks of the board. *)
Lemma played_counts moves g :
  invariant g →
  (marks Cell.X (board (after moves g)) + marks Cell.O (board (after moves g)) =
   marks Cell.X (board g) + marks Cell.O (board g)
   + length (played moves g))%nat ∧
  alternating (current_turn g) (played moves g) ∧
  wf_board (board (after moves g)).
Proof.
  revert g. induction moves as [|[[r c] m] moves IH]; intros g Hinv.
  - cbn. split; [lia|]. split; [done|]. by destruct Hinv.
  - rewrite after_cons. cbn [played].
    pose proof (invariant_make_move g r c m Hinv) as Hinv1.
    pose proof Hinv as (Hwf & Hturn & Hopen & _).
    destruct (make_move_outcomes r c m g Hwf)
      as [Hr|[Hr|(b' & Hover & Hm & Hcell & Hup & Hr)]];
      rewrite Hr in *; cbn [final_state] in *; [by apply IH|by apply IH|].
    assert (m ≠ Cell.EMPTY) as Hmark by (destruct Hturn; congruence).
    destruct (marks_board_update _ _ _ _ Hwf Hcell Hmark Hup) as [Hplus Hsame].
    destruct (settle_frame m (with_board b' g)) as (Hb & _).
    cbn [board with_board] in Hb.
    assert ((marks Cell.X b' + marks Cell.O b' =
             S (marks Cell.X (board g) + marks Cell.O (board g)))%nat) as Hsum.
    { destruct Hturn as [Ht|Ht]; rewrite Ht in Hm; subst m.
      - rewrite Hplus, (Hsame Cell.O) by done. lia.
      - rewrite Hplus, (Hsame Cell.X) by done. lia. }
    destruct (IH _ Hinv1) as (Hcount & Halt & Hwf1).
    rewrite Hb in Hcount. cbn [length alternating].
    split; [lia|]. split; [|done]. split; [done|].
    destruct (game_over (settle m (with_board b' g))) eqn:Hover1;
      [by rewrite played_game_over|].
    revert Halt Hover1. unfold settle. cbn [board with_board].
    destruct (bool_decide (has_line b' m)); [done|].
    destruct (bool_decide (full b')); [done|].
    cbn. by rewrite <- Hm.
Qed.

(** X6: in any run of [make_move] calls on a fresh game, with any
    arguments and whether the calls return or raise, the number of
    accepted calls is the number of marks on the board the run leaves,
    and it is at most nine. *)
Theorem at_most_nine_moves moves :
  length (played moves new_game) =
    (marks Cell.X (board (after moves new_game))
     + marks Cell.O (board (after moves new_game)))%nat ∧
  (length (played moves new_game) ≤ 9)%nat.
Proof.
  destruct (played_counts moves new_game invariant_new) as (Hcount & _ & Hwf).
  pose proof (marks_total _ Hwf).
  change (marks Cell.X (board new_game)) with 0%nat in Hcount.
  change (marks Cell.O (board new_game)) with 0%nat in Hcount.
  lia.
Qed.

(** X7: in any run of [make_move] calls on a fresh game, with any
    arguments and whether the calls return or raise, the marks of the
    accepted calls alternate, [X] first. *)
Theorem accepted_moves_alternate moves :
  alternating Cell.X (played moves new_game).
Proof.
  by destruct (played_counts moves new_game invariant_new) as (_ & Halt & _).
Qed.

(** A run with a rejected call and a call that raises. *)
Example scenario_played :
  played [(0, 0, Cell.X); (0, 0, Cell.O); (7, 0, Cell.O); (1, 1, Cell.O);
          (2, 2, Cell.O); (2, 2, Cell.X)] new_game =
  [Cell.X; Cell.O; Cell.X].
Proof. vm_compute. reflexivity. Qed.

(** ** The queries *)

Lemma get_winner_player_run g :
  get_winner_player g =
  Return (match winner g with
          | Some Cell.X => player_x g
          | Some Cell.O => player_o g
          | _ => None
          end) g.
Proof.
  unfold get_winner_player, bind, get, ret.
  by destruct (winner g) as [[]|].
Qed.

Lemma get_current_player_run g :
  get_current_player g =
  Return (if Cell.eqb (current_turn g) Cell.X then player_x g else player_o g) g.
Proof.
  unfold get_current_player, bind, get.
  by destruct (Cell.eqb (current_turn g) Cell.X).
Qed.

(** X8: in a game reached by play, [get_winner_player] returns a player
    only when the game is terminal and the mark that player is bound to
    holds a winning line; on a game that is not terminal it returns
    [None]; and it leaves the game as it was. *)
Theorem winner_player_owns_a_line g :
  reachable g →
  ∃ o, get_winner_player g = Return o g ∧
    (game_over g = false → o = None) ∧
    (∀ p, o = Some p →
          game_over g = true ∧
          ((player_x g = Some p ∧ winner g = Some Cell.X ∧
            has_line (board g) Cell.X) ∨
           (player_o g = Some p ∧ winner g = Some Cell.O ∧
            has_line (board g) Cell.O))).
Proof.
  intros Hreach. rewrite get_winner_player_run. eexists. split; [done|].
  destruct (reachable_outcome_invariant g Hreach) as (Hwin & _).
  destruct (winner g) as [w|] eqn:Hw; [|by split].
  destruct (Hwin w eq_refl) as (Hover & Hxo & Hline & _).
  split; [congruence|]. intros p Hp. split; [done|].
  destruct w; [done|left|right]; by repeat split.
Qed.

Lemma winner_player_owns_a_line_witness :
  let g := after [(0, 0, Cell.X); (1, 1, Cell.O); (0, 1, Cell.X); (2, 2, Cell.O);
                  (0, 2, Cell.X)]
             (with_player_x (Some (mkPlayer 7 "ann" Cell.X)) new_game) in
  ∃ o, get_winner_player g = Return o g ∧
    (game_over g = false → o = None) ∧
    (∀ p, o = Some p →
          game_over g = true ∧
          ((player_x g = Some p ∧ winner g = Some Cell.X ∧
            has_line (board g) Cell.X) ∨
           (player_o g = Some p ∧ winner g = Some Cell.O ∧
            has_line (board g) Cell.O))).
Proof.
  apply (winner_player_owns_a_line
           (after [(0, 0, Cell.X); (1, 1, Cell.O); (0, 1, Cell.X);
                   (2, 2, Cell.O); (0, 2, Cell.X)]
              (with_player_x (Some (mkPlayer 7 "ann" Cell.X)) new_game))).
  apply (reach_move _ 0 2 Cell.X), (reach_move _ 2 2 Cell.O),
    (reach_move _ 0 1 Cell.X), (reach_move _ 1 1 Cell.O),
    (reach_move _ 0 0 Cell.X), reach_player_x, reach_new.
Defined.

(** X9: in a game reached by play, the current player is the one bound
    to the mark whose turn it is, and an accepted move that does not
    end the game passes the turn to the player bound to the other mark;
    an accepted move that ends the game leaves the current player the
    one who made it. *)
Theorem current_player_alternates g row col m g' :
  reachable g → make_move row col m g = Return true g' →
  (m = Cell.X ∧ get_current_player g = Return (player_x g) g ∧
   get_current_player g' =
     Return (if game_over g' then player_x g else player_o g) g') ∨
  (m = Cell.O ∧ get_current_player g = Return (player_o g) g ∧
   get_current_player g' =
     Return (if game_over g' then player_o g else player_x g) g').
Proof.
  intros Hreach Hmove.
  destruct (reachable_invariant g Hreach) as (Hwf & Hturn & _).
  destruct (make_move_outcomes row col m g Hwf)
    as [Hr|[Hr|(b' & Hover & Hm & Hcell & Hup & Hr)]]; [congruence|congruence|].
  rewrite Hr in Hmove. injection Hmove as <-.
  rewrite !get_current_player_run.
  destruct (settle_frame m (with_board b' g)) as (_ & -> & -> & _).
  cbn [player_x player_o with_board]. rewrite <- Hm.
  unfold settle. cbn [board with_board].
  destruct (bool_decide (has_line b' m));
    [|destruct (bool_decide (full b'))]; cbn; rewrite <- ?Hm, ?Hover;
    (destruct Hturn as [Ht|Ht]; rewrite Ht in Hm; subst m; [left|right]);
    done.
Qed.

Lemma current_player_alternates_witness :
  let g := with_player_o (Some (mkPlayer 0 "Bot" Cell.O))
             (with_player_x (Some (mkPlayer 7 "ann" Cell.X)) new_game) in
  let g' := final_state (make_move 1 1 Cell.X g) in
  (Cell.X = Cell.X ∧ get_current_player g = Return (player_x g) g ∧
   get_current_player g' =
     Return (if game_over g' then player_x g else player_o g) g') ∨
  (Cell.X = Cell.O ∧ get_current_player g = Return (player_o g) g ∧
   get_current_player g' =
     Return (if game_over g' then player_o g else player_x g) g').
Proof.
  apply (current_player_alternates
           (with_player_o (Some (mkPlayer 0 "Bot" Cell.O))
              (with_player_x (Some (mkPlayer 7 "ann" Cell.X)) new_game))
           1 1 Cell.X).
  - apply reach_player_o, reach_player_x, reach_new.
  - reflexivity.
Defined.




Lemma cell_display_out_of_range g r c :
  wf_board (board g) → ¬ py_in_range (r, c) →
  get_cell_display r c g = Raise IndexError g.
Proof.
  intros Hwf Hp. apply (cell_at_None_iff _ _ Hwf) in Hp.
  unfold get_cell_display, bind. by rewrite board_getitem_run, Hp.
Qed.

(** ** The priority chain of [bot_move] *)

Lemma first_gap_unique b m p q :
  m ≠ Cell.EMPTY → first_gap b m p → first_gap b m q → p = q.
Proof.
  intros Hm (i & l & Hi & Hgi & Hfi) (j & l' & Hj & Hgj & Hfj).
  destruct (Nat.lt_trichotomy i j) as [Hlt|[->|Hgt]].
  - by destruct (Hfj i l p Hlt Hi).
  - rewrite Hi in Hj. injection Hj as <-. by eapply gap_in_unique.
  - by destruct (Hfi j l' q Hgt Hj).
Qed.

Lemma first_gap_empty b m p : first_gap b m p → in_range p ∧ empty_at b p.
Proof.
  intros (i & l & Hi & Hg & _). apply list_elem_of_lookup_2 in Hi.
  by eapply gap_in_WIN_LINES_empty.
Qed.

Lemma first_gap_not_no_gap b m p : first_gap b m p → ¬ no_gap b m.
Proof.
  intros (i & l & Hi & Hg & _) Hno. apply list_elem_of_lookup_2 in Hi.
  by destruct (Hno l p Hi).
Qed.

(** What [_find_winning_move] returns on a well-formed board. *)
Lemma find_winning_move_run m g :
  wf_board (board g) → m ≠ Cell.EMPTY →
  ∃ o, _find_winning_move m g = Return o g ∧
    match o with
    | Some p => first_gap (board g) m p
    | None => no_gap (board g) m
    end.
Proof.
  intros Hwf Hm.
  destruct (find_winning_move_from_spec m WIN_LINES g Hwf Hm good_lines)
    as (o & Hrun & Ho).
  exists o. split; [done|]. destruct o as [p|]; [|done].
  destruct Ho as (pre & line & post & Hsplit & Hpre & Hgap).
  exists (length pre), line. split; [|split; [done|]].
  - rewrite Hsplit. by apply list_lookup_middle.
  - intros j l q Hj Hl. apply Hpre.
    rewrite Hsplit, lookup_app_l in Hl by done.
    by eapply list_elem_of_lookup_2.
Qed.

Section Priority.

Variable shuffle : list pos → list pos.
Hypothesis shuffle_permutes : ∀ l, shuffle l ≡ₚ l.

Lemma first_empty_shuffled ps g :
  wf_board (board g) → (∀ p, p ∈ ps → in_range p) →
  ∃ o, first_empty (shuffle ps) g = Return o g ∧
    match o with
    | Some p => p ∈ ps ∧ empty_at (board g) p
    | None => ∀ p, p ∈ ps → ¬ empty_at (board g) p
    end.
Proof.
  intros Hwf Hps.
  destruct (first_empty_spec (shuffle ps) g Hwf) as (o & Hrun & Ho).
  { apply Forall_forall. intros p Hp. apply Hps.
    by rewrite <- (shuffle_permutes ps). }
  exists o. split; [done|]. destruct o as [p|].
  - destruct Ho as [Hin He]. split; [|done]. by rewrite <- (shuffle_permutes ps).
  - intros p Hp. apply Ho. by rewrite (shuffle_permutes ps).
Qed.

(** The rule that fires, with what it returns. *)
Lemma bot_move_cases g :
  wf_board (board g) → game_over g = false → current_turn g = Cell.O →
  ∃ o, bot_move shuffle g = Return o g ∧
    ((∃ p, o = Some p ∧ first_gap (board g) Cell.O p) ∨
     (no_gap (board g) Cell.O ∧
      ((∃ p, o = Some p ∧ first_gap (board g) Cell.X p) ∨
       (no_gap (board g) Cell.X ∧
        ((o = Some (1, 1) ∧ empty_at (board g) (1, 1)) ∨
         (¬ empty_at (board g) (1, 1) ∧
          ((∃ p, o = Some p ∧ p ∈ corners ∧ empty_at (board g) p) ∨
           ((∀ p, p ∈ corners → ¬ empty_at (board g) p) ∧
            ((∃ p, o = Some p ∧ p ∈ edges ∧ empty_at (board g) p) ∨
             (o = None ∧ ∀ p, p ∈ edges → ¬ empty_at (board g) p)))))))))).
Proof.
  intros Hwf Hover Hturn.
  unfold bot_move, get.
  unfold bind at 1. rewrite Hover. unfold bind at 1. rewrite Hturn.
  cbn [orb negb Cell.eqb].
  destruct (find_winning_move_run Cell.O g Hwf) as (o1 & Hrun1 & Ho1); [done|].
  unfold bind at 1. rewrite Hrun1. destruct o1 as [p1|].
  { exists (Some p1). split; [done|]. left. by exists p1. }
  destruct (find_winning_move_run Cell.X g Hwf) as (o2 & Hrun2 & Ho2); [done|].
  unfold bind at 1. rewrite Hrun2. destruct o2 as [p2|].
  { exists (Some p2). split; [done|]. right. split; [done|]. left. by exists p2. }
  assert (in_range (1, 1)) as Hc by (split; cbn; lia).
  destruct (board_getitem_in_range (1, 1) g Hwf Hc) as (v & Hv & Hget).
  unfold bind at 1. rewrite Hget, eqb_decide.
  destruct (decide (v = Cell.EMPTY)) as [->|Hne];
    [rewrite (bool_decide_eq_true_2 (Cell.EMPTY = Cell.EMPTY)) by done
    |rewrite (bool_decide_eq_false_2 (v = Cell.EMPTY)) by done].
  { exists (Some (1, 1)). split; [done|]. right. split; [done|]. right.
    split; [done|]. by left. }
  assert (¬ empty_at (board g) (1, 1)) as Hcentre
    by (unfold empty_at; congruence).
  destruct (first_empty_shuffled corners g Hwf corners_in_range)
    as (o3 & Hrun3 & Ho3).
  unfold bind at 1. rewrite Hrun3. destruct o3 as [p3|].
  { exists (Some p3). split; [done|]. right. split; [done|]. right.
    split; [done|]. right. split; [done|]. left. by exists p3. }
  destruct (first_empty_shuffled edges g Hwf edges_in_range)
    as (o4 & Hrun4 & Ho4).
  unfold bind at 1. rewrite Hrun4. destruct o4 as [p4|].
  { exists (Some p4). split; [done|]. right. split; [done|]. right.
    split; [done|]. right. split; [done|]. right. split; [done|].
    left. by exists p4. }
  exists None. split; [done|]. right. split; [done|]. right.
  split; [done|]. right. split; [done|]. right. split; [done|]. by right.
Qed.

(** X11: with [O] to move on a game that is not terminal, when no line
    has two [O] and an empty cell, and some line has two [X] and an
    empty cell, [bot_move] returns the empty cell of the first such
    line in the order of [WIN_LINES]: it blocks. *)
Theorem bot_move_blocks g p :
  wf_board (board g) → game_over g = false → current_turn g = Cell.O →
  no_gap (board g) Cell.O → first_gap (board g) Cell.X p →
  bot_move shuffle g = Return (Some p) g.
Proof.
  intros Hwf Hover Hturn HnoO HgX.
  destruct (bot_move_cases g Hwf Hover Hturn) as (o & -> & Hcases).
  f_equal.
  destruct Hcases as [(q & _ & HgO)|(_ & [(q & -> & HgX')|(HnoX & _)])].
  - by destruct (first_gap_not_no_gap _ _ _ HgO).
  - f_equal. by apply (first_gap_unique (board g) Cell.X).
  - by destruct (first_gap_not_no_gap _ _ _ HgX).
Qed.

(** X12: with [O] to move on a game that is not terminal, when no line
    has two cells of one mark and the third empty, and the centre is
    empty, [bot_move] returns the centre. *)
Theorem bot_move_takes_centre g :
  wf_board (board g) → game_over g = false → current_turn g = Cell.O →
  no_gap (board g) Cell.O → no_gap (board g) Cell.X →
  empty_at (board g) (1, 1) →
  bot_move shuffle g = Return (Some (1, 1)) g.
Proof.
  intros Hwf Hover Hturn HnoO HnoX Hcentre.
  destruct (bot_move_cases g Hwf Hover Hturn) as (o & -> & Hcases).
  f_equal.
  destruct Hcases as [(q & _ & HgO)|(_ & [(q & _ & HgX)|(_ & [[-> _]|[Hn _]])])].
  - by destruct (first_gap_not_no_gap _ _ _ HgO).
  - by destruct (first_gap_not_no_gap _ _ _ HgX).
  - done.
  - done.
Qed.

(** X13: with [O] to move on a game that is not terminal, when no line
    has two cells of one mark and the third empty and the centre is
    taken, [bot_move] returns an empty corner if there is one, and
    otherwise an empty edge if there is one; which one depends on the
    shuffle. *)
Theorem bot_move_corner_then_edge g :
  wf_board (board g) → game_over g = false → current_turn g = Cell.O →
  no_gap (board g) Cell.O → no_gap (board g) Cell.X →
  ¬ empty_at (board g) (1, 1) →
  ∃ o, bot_move shuffle g = Return o g ∧
    ((∃ c, c ∈ corners ∧ empty_at (board g) c) →
     ∃ p, o = Some p ∧ p ∈ corners ∧ empty_at (board g) p) ∧
    ((∀ c, c ∈ corners → ¬ empty_at (board g) c) →
     (∃ e, e ∈ edges ∧ empty_at (board g) e) →
     ∃ p, o = Some p ∧ p ∈ edges ∧ empty_at (board g) p).
Proof.
  intros Hwf Hover Hturn HnoO HnoX Hcentre.
  destruct (bot_move_cases g Hwf Hover Hturn) as (o & Hrun & Hcases).
  exists o. split; [done|].
  destruct Hcases as [(q & _ & HgO)|(_ & [(q & _ & HgX)|(_ & [[_ He]|[_ Hrest]])])].
  - by destruct (first_gap_not_no_gap _ _ _ HgO).
  - by destruct (first_gap_not_no_gap _ _ _ HgX).
  - done.
  - destruct Hrest as [(p & -> & Hp & He)|(Hnc & Hrest)].
    + split; [by eauto|]. intros Hnc. by destruct (Hnc p Hp).
    + split; [by intros (c & Hc & He); destruct (Hnc c Hc)|].
      intros _ (e & He & Hee).
      destruct Hrest as [(p & -> & Hp & Hpe)|[_ Hne]]; [by eauto|].
      by destruct (Hne e He).
Qed.

(** X14: the move [bot_move] returns is accepted: with [O] to move,
    [make_move] at the returned row and column with the mark [O]
    answers [True]. *)
Theorem bot_move_is_accepted g r c g1 :
  wf_board (board g) → current_turn g = Cell.O →
  bot_move shuffle g = Return (Some (r, c)) g1 →
  ∃ g', make_move r c Cell.O g = Return true g' ∧
        cell_at (board g') (r, c) = Some Cell.O.
Proof.
  intros Hwf Hturn Hrun.
  destruct (game_over g) eqn:Hover.
  { unfold bot_move, bind, get in Hrun. by rewrite Hover in Hrun. }
  destruct (bot_move_cases g Hwf Hover Hturn) as (o & Hrun' & Hcases).
  rewrite Hrun' in Hrun. injection Hrun as -> <-.
  assert (empty_at (board g) (r, c)) as He.
  { destruct Hcases as [(q & [= <-] & Hg)|(_ & [(q & [= <-] & Hg)|(_ & Hc)])];
      [by apply first_gap_empty in Hg as [_ ?]
      |by apply first_gap_empty in Hg as [_ ?]|].
    destruct Hc as [[[= <- <-] ?]|[_ [(q & [= <-] & _ & ?)|(_ & Hc)]]];
      [done|done|].
    by destruct Hc as [(q & [= <-] & _ & ?)|[[=] _]]. }
  destruct (make_move_empty_cell g (r, c) Hwf Hover He) as (b' & Hup & Hmove).
  rewrite Hturn in Hmove, Hup. cbn [fst snd] in Hmove.
  eexists. split; [exact Hmove|].
  destruct (settle_frame Cell.O (with_board b' g)) as (-> & _).
  by eapply cell_at_board_update_same.
Qed.

End Priority.

Lemma bot_move_blocks_witness :
  let g := mkGame [[Cell.X; Cell.X; Cell.EMPTY];
                   [Cell.EMPTY; Cell.O; Cell.EMPTY];
                   [Cell.EMPTY; Cell.EMPTY; Cell.EMPTY]]
                  None None Cell.O false false None in
  bot_move reverse g = Return (Some (0, 2)) g.
Proof.
  apply (bot_move_blocks reverse (λ l, reverse_Permutation l)
           (mkGame [[Cell.X; Cell.X; Cell.EMPTY];
                    [Cell.EMPTY; Cell.O; Cell.EMPTY];
                    [Cell.EMPTY; Cell.EMPTY; Cell.EMPTY]]
                   None None Cell.O false false None) (0, 2)).
  - split; [reflexivity|]. by repeat constructor.
  - reflexivity.
  - reflexivity.
  - apply (bool_decide_unpack _). vm_compute. exact I.
  - exists 0%nat, [(0, 0); (0, 1); (0, 2)]. split; [reflexivity|].
    split; [apply (bool_decide_unpack _); vm_compute; exact I|].
    intros j l q Hj. lia.
Defined.

Lemma bot_move_takes_centre_witness :
  let g := after [(0, 0, Cell.X)] new_game in
  bot_move reverse g = Return (Some (1, 1)) g.
Proof.
  apply (bot_move_takes_centre reverse (λ l, reverse_Permutation l)
           (after [(0, 0, Cell.X)] new_game)).
  - split; [reflexivity|]. vm_compute. by repeat constructor.
  - reflexivity.
  - reflexivity.
  - apply (bool_decide_unpack _). vm_compute. exact I.
  - apply (bool_decide_unpack _). vm_compute. exact I.
  - reflexivity.
Defined.

Lemma bot_move_corner_then_edge_witness :
  let g := after [(1, 1, Cell.X)] new_game in
  ∃ o, bot_move reverse g = Return o g ∧
    ((∃ c, c ∈ corners ∧ empty_at (board g) c) →
     ∃ p, o = Some p ∧ p ∈ corners ∧ empty_at (board g) p) ∧
    ((∀ c, c ∈ corners → ¬ empty_at (board g) c) →
     (∃ e, e ∈ edges ∧ empty_at (board g) e) →
     ∃ p, o = Some p ∧ p ∈ edges ∧ empty_at (board g) p).
Proof.
  apply (bot_move_corner_then_edge reverse (λ l, reverse_Permutation l)
           (after [(1, 1, Cell.X)] new_game)).
  - split; [reflexivity|]. vm_compute. by repeat constructor.
  - reflexivity.
  - reflexivity.
  - apply (bool_decide_unpack _). vm_compute. exact I.
  - apply (bool_decide_unpack _). vm_compute. exact I.
  - intros H. vm_compute in H. discriminate.
Defined.

Lemma bot_move_is_accepted_witness :
  let g := after [(1, 1, Cell.X)] new_game in
  ∃ g', make_move 2 2 Cell.O g = Return true g' ∧
        cell_at (board g') (2, 2) = Some Cell.O.
Proof.
  apply (bot_move_is_accepted reverse (λ l, reverse_Permutation l)
           (after [(1, 1, Cell.X)] new_game) 2 2
           (after [(1, 1, Cell.X)] new_game)).
  - split; [reflexivity|]. vm_compute. by repeat constructor.
  - reflexivity.
  - vm_compute. reflexivity.
Defined.

(** Writing [m] in the gap of a line gives [m] the line. *)
Lemma fill_gap_owns b m line p b' :
  wf_board b → line ∈ WIN_LINES → gap_in b m line p →
  board_update b p m = Some b' → owns b' m line.
Proof.
  intros Hwf Hline (Hp & He & Hoth) Hup. apply Forall_forall. intros q Hq.
  rewrite (cell_at_board_update b p m b' q Hwf Hup).
  destruct (decide (slot q = slot p)) as [|Hne]; [done|].
  apply Hoth; [done|]. intros ->. done.
Qed.

(** X15: when [O] has two cells of a line and the third is empty, the
    move [bot_move] returns, once made, ends the game with [O] the
    winner. *)
Theorem bot_move_wins_when_it_can shuffle g p :
  wf_board (board g) → game_over g = false → current_turn g = Cell.O →
  first_gap (board g) Cell.O p →
  bot_move shuffle g = Return (Some p) g ∧
  ∃ g', make_move p.1 p.2 Cell.O g = Return true g' ∧
        game_over g' = true ∧ winner g' = Some Cell.O.
Proof.
  intros Hwf Hover Hturn Hgap.
  destruct (first_gap_empty _ _ _ Hgap) as [Hp He].
  split.
  - unfold bot_move, get.
    unfold bind at 1. rewrite Hover. unfold bind at 1. rewrite Hturn.
    cbn [orb negb Cell.eqb].
    destruct (find_winning_move_run Cell.O g Hwf) as (o & Hrun & Ho); [done|].
    unfold bind at 1. rewrite Hrun. destruct o as [q|].
    + by rewrite (first_gap_unique (board g) Cell.O q p).
    + by destruct (first_gap_not_no_gap _ _ _ Hgap).
  - destruct (make_move_empty_cell g p Hwf Hover He) as (b' & Hup & Hmove).
    rewrite Hturn in Hmove, Hup.
    eexists. split; [exact Hmove|].
    destruct Hgap as (i & line & Hi & Hg & _).
    apply list_elem_of_lookup_2 in Hi.
    assert (has_line b' Cell.O) as Hline.
    { apply has_line_exists. exists line. split; [done|].
      by eapply fill_gap_owns. }
    unfold settle. cbn [board with_board].
    by rewrite (bool_decide_eq_true_2 _ Hline).
Qed.

Lemma bot_move_wins_when_it_can_witness :
  let g := mkGame [[Cell.O; Cell.O; Cell.EMPTY];
                   [Cell.X; Cell.X; Cell.EMPTY];
                   [Cell.X; Cell.EMPTY; Cell.EMPTY]]
                  None None Cell.O false false None in
  bot_move reverse g = Return (Some (0, 2)) g ∧
  ∃ g', make_move 0 2 Cell.O g = Return true g' ∧
        game_over g' = true ∧ winner g' = Some Cell.O.
Proof.
  apply (bot_move_wins_when_it_can reverse
           (mkGame [[Cell.O; Cell.O; Cell.EMPTY];
                    [Cell.X; Cell.X; Cell.EMPTY];
                    [Cell.X; Cell.EMPTY; Cell.EMPTY]]
                   None None Cell.O false false None) (0, 2)).
  - split; [reflexivity|]. by repeat constructor.
  - reflexivity.
  - reflexivity.
  - exists 0%nat, [(0, 0); (0, 1); (0, 2)]. split; [reflexivity|].
    split; [apply (bool_decide_unpack _); vm_compute; exact I|].
    intros j l q Hj. lia.
Defined.

(** * Properties of the chat layer ([bot.py]) *)

(** ** The keyboard and the data of its buttons *)

(** The button of [build_board_keyboard] for a cell. *)
Lemma build_board_keyboard_run over g :
  wf_board (board g) →
  ∃ kb, build_board_keyboard over g = Return kb g ∧
    ∀ r c, 0 ≤ r ≤ 2 → 0 ≤ c ≤ 2 →
      ∃ cell, cell_at (board g) (r, c) = Some cell ∧
        getitem kb r ≫= (λ row, getitem row c) =
        Some (mkButton (SYMBOLS cell)
                (if over || negb (Cell.eqb cell Cell.EMPTY)
                 then "noop_" +:+ str r +:+ "_" +:+ str c
                 else "move_" +:+ str r +:+ "_" +:+ str c)).
Proof.
  intros Hwf.
  destruct (wf_board_shape _ Hwf)
    as (a0 & a1 & a2 & b0 & b1 & b2 & c0 & c1 & c2 & Hb).
  destruct g as [b px po turn vs ov w]. cbn [board] in *. subst b.
  eexists. split.
  - lazy. reflexivity.
  - intros r c Hr Hc.
    assert (r = 0 ∨ r = 1 ∨ r = 2) as [->|[->| ->]] by lia;
      assert (c = 0 ∨ c = 1 ∨ c = 2) as [->|[->| ->]] by lia;
      eexists; (split; [reflexivity|]); reflexivity.
Qed.

Lemma build_board_keyboard_shape over g kb :
  wf_board (board g) → build_board_keyboard over g = Return kb g →
  length kb = 3%nat ∧ Forall (λ row, length row = 3%nat) kb.
Proof.
  intros Hwf.
  destruct (wf_board_shape _ Hwf)
    as (a0 & a1 & a2 & b0 & b1 & b2 & c0 & c1 & c2 & Hb).
  destruct g as [b px po turn vs ov w]. cbn [board] in *. subst b.
  lazy. intros [= <-]. split; [done|]. by repeat constructor.
Qed.

(** X16: the keyboard [build_board_keyboard(game)] shows has three rows
    of three buttons and is built without changing the game; the button
    at a row and column shows the symbol of the cell; on an empty cell
    its data starts with ["move_"] and is parsed back by the handler to
    that row and column, and on a taken cell it starts with
    ["noop_"]. *)
Theorem move_buttons_round_trip env g :
  wf_board (board g) →
  (∀ n, 0 ≤ n ≤ 2 → int_of env (str n) = Some n) →
  ∃ kb, build_board_keyboard false g = Return kb g ∧
    length kb = 3%nat ∧ Forall (λ row, length row = 3%nat) kb ∧
    ∀ r c, 0 ≤ r ≤ 2 → 0 ≤ c ≤ 2 →
      ∃ cell button,
        cell_at (board g) (r, c) = Some cell ∧
        getitem kb r ≫= (λ row, getitem row c) = Some button ∧
        text button = SYMBOLS cell ∧
        if decide (cell = Cell.EMPTY)
        then String.prefix "move_" (callback_data button) = true ∧
             parse_move env (callback_data button) = Some (r, c)
        else String.prefix "noop_" (callback_data button) = true.
Proof.
  intros Hwf Hdigits.
  destruct (build_board_keyboard_run false g Hwf) as (kb & Hrun & Hkb).
  destruct (build_board_keyboard_shape false g kb Hwf Hrun) as [Hlen Hrows].
  exists kb. split; [done|]. split; [done|]. split; [done|].
  intros r c Hr Hc. destruct (Hkb r c Hr Hc) as (cell & Hcell & Hbutton).
  eexists cell, _. split; [done|]. split; [exact Hbutton|]. split; [done|].
  assert (int_of env "0" = Some 0) as H0 by (apply (Hdigits 0); lia).
  assert (int_of env "1" = Some 1) as H1 by (apply (Hdigits 1); lia).
  assert (int_of env "2" = Some 2) as H2 by (apply (Hdigits 2); lia).
  destruct (decide (cell = Cell.EMPTY)) as [->|Hne].
  - assert (r = 0 ∨ r = 1 ∨ r = 2) as [->|[->| ->]] by lia;
      assert (c = 0 ∨ c = 1 ∨ c = 2) as [->|[->| ->]] by lia;
      (split; [reflexivity|]); unfold parse_move;
      cbn [orb negb Cell.eqb callback_data];
      lazy -[int_of mbind]; rewrite ?H0, ?H1, ?H2; cbn;
      rewrite ?H0, ?H1, ?H2; reflexivity.
  - assert (r = 0 ∨ r = 1 ∨ r = 2) as [->|[->| ->]] by lia;
      assert (c = 0 ∨ c = 1 ∨ c = 2) as [->|[->| ->]] by lia;
      destruct cell; try done; reflexivity.
Qed.

Lemma move_buttons_round_trip_witness :
  let g := after [(1, 1, Cell.X)] new_game in
  ∃ kb, build_board_keyboard false g = Return kb g ∧
    length kb = 3%nat ∧ Forall (λ row, length row = 3%nat) kb ∧
    ∀ r c, 0 ≤ r ≤ 2 → 0 ≤ c ≤ 2 →
      ∃ cell button,
        cell_at (board g) (r, c) = Some cell ∧
        getitem kb r ≫= (λ row, getitem row c) = Some button ∧
        text button = SYMBOLS cell ∧
        if decide (cell = Cell.EMPTY)
        then String.prefix "move_" (callback_data button) = true ∧
             parse_move sample_env (callback_data button) = Some (r, c)
        else String.prefix "noop_" (callback_data button) = true.
Proof.
  apply (move_buttons_round_trip sample_env (after [(1, 1, Cell.X)] new_game)).
  - split; [reflexivity|]. vm_compute. by repeat constructor.
  - intros n Hn. assert (n = 0 ∨ n = 1 ∨ n = 2) as [->|[->| ->]] by lia;
      reflexivity.
Defined.

(** ** The status line *)

Lemma status_text_run g :
  status_text g =
  Return
    (if game_over g then
       match winner g with
       | Some Cell.X =>
           match player_x g with
           | Some w => "🏆 " +:+ SYMBOLS (symbol w) +:+ " " +:+ username w +:+ " wins!"
           | None => "🤝 It's a draw!"
           end
       | Some Cell.O =>
           match player_o g with
           | Some w => "🏆 " +:+ SYMBOLS (symbol w) +:+ " " +:+ username w +:+ " wins!"
           | None => "🤝 It's a draw!"
           end
       | _ => "🤝 It's a draw!"
       end
     else
       match (if Cell.eqb (current_turn g) Cell.X then player_x g else player_o g) with
       | Some c =>
           "Tic-Tac-Toe" +:+ nl +:+ nl +:+ SYMBOLS (symbol c) +:+ " "
           +:+ username c +:+ "'s turn"
       | None => "Tic-Tac-Toe" +:+ nl +:+ nl +:+ "Waiting for opponent..."
       end) g.
Proof.
  unfold status_text, bind at 1, get at 1.
  destruct (game_over g).
  - unfold bind. rewrite get_winner_player_run.
    by destruct (winner g) as [[]|], (player_x g), (player_o g).
  - unfold bind. rewrite get_current_player_run.
    by destruct (if Cell.eqb (current_turn g) Cell.X then player_x g else player_o g).
Qed.

Lemma read_only_status_text : read_only status_text.
Proof. intros g. by rewrite status_text_run. Qed.

(** X17: in a game reached by play with both players bound,
    [status_text] returns without changing the game, and what it
    returns is one of three texts: on a game that is not terminal, the
    header and the symbol and name of the player bound to the mark
    whose turn it is; on a terminal game with a winner, the symbol and
    name of the player bound to the winning mark, which holds a winning
    line; on a terminal game without winner, the draw text, the board
    being full with no monochromatic line.  The three texts differ, so
    the draw text is shown only on a draw and a win only on a win. *)
Theorem status_text_reports g px po :
  reachable g → player_x g = Some px → player_o g = Some po →
  ∃ s, status_text g = Return s g ∧
    ((game_over g = false ∧
      ∃ cur, (current_turn g = Cell.X ∧ cur = px ∨
              current_turn g = Cell.O ∧ cur = po) ∧
        s = "Tic-Tac-Toe" +:+ nl +:+ nl +:+ SYMBOLS (symbol cur) +:+ " "
            +:+ username cur +:+ "'s turn") ∨
     (game_over g = true ∧
      ∃ w p, winner g = Some w ∧ has_line (board g) w ∧
        (w = Cell.X ∧ p = px ∨ w = Cell.O ∧ p = po) ∧
        s = "🏆 " +:+ SYMBOLS (symbol p) +:+ " " +:+ username p +:+ " wins!") ∨
     (game_over g = true ∧ winner g = None ∧ full (board g) ∧
      (∀ line, line ∈ WIN_LINES → ¬ monochrome (board g) line) ∧
      s = "🤝 It's a draw!")) ∧
    (s = "🤝 It's a draw!" →
     game_over g = true ∧ winner g = None ∧ full (board g) ∧
     ∀ line, line ∈ WIN_LINES → ¬ monochrome (board g) line) ∧
    (String.prefix "🏆 " s = true →
     game_over g = true ∧ ∃ w, winner g = Some w ∧ has_line (board g) w) ∧
    (String.prefix "Tic-Tac-Toe" s = true → game_over g = false).
Proof.
  intros Hreach Hpx Hpo. rewrite status_text_run. eexists.
  split; [done|].
  destruct (reachable_outcome_invariant g Hreach) as (Hwin & Hdraw & _).
  destruct (reachable_invariant g Hreach) as (_ & Hturn & _).
  rewrite Hpx, Hpo.
  destruct (game_over g) eqn:Hover.
  - destruct (winner g) as [w|] eqn:Hw.
    + destruct (Hwin w eq_refl) as (_ & Hxo & Hline & _).
      destruct Hxo as [-> | ->].
      * split; [right; left; split; [done|]; exists Cell.X, px;
                split; [done|]; split; [done|]; split; [by left|done]|].
        split; [intros [=]|]. split; [by eauto|intros [=]].
      * split; [right; left; split; [done|]; exists Cell.O, po;
                split; [done|]; split; [done|]; split; [by right|done]|].
        split; [intros [=]|]. split; [by eauto|intros [=]].
    + destruct (Hdraw eq_refl eq_refl) as (Hfull & HnX & HnO).
      pose proof (no_line_no_monochrome _ HnX HnO) as Hnone.
      split; [by right; right|]. split; [done|]. split; intros [=].
  - destruct Hturn as [Ht|Ht]; rewrite Ht; cbn [Cell.eqb].
    + split; [left; split; [done|]; exists px; split; [by left|done]|].
      split; [intros [=]|]. split; [intros [=]|done].
    + split; [left; split; [done|]; exists po; split; [by right|done]|].
      split; [intros [=]|]. split; [intros [=]|done].
Qed.

(** ** What a handler may do to the state *)

Lemma read_only_for_each {A B} (body : A → M B) xs :
  (∀ x, read_only (body x)) → read_only (for_each body xs).
Proof.
  intros Hbody. induction xs as [|x xs IH]; cbn; [done|].
  apply read_only_bind; [done|]. intros y.
  apply read_only_bind; [done|]. by intros ys.
Qed.

Lemma read_only_build_board_keyboard over :
  read_only (build_board_keyboard over).
Proof.
  apply read_only_for_each. intros row. apply read_only_for_each. intros col.
  apply read_only_bind; [apply read_only_board_getitem|]. by intros cell.
Qed.

Lemma read_only_build_game_over_keyboard :
  read_only build_game_over_keyboard.
Proof.
  apply read_only_bind; [|by intros kb].
  apply read_only_for_each. intros row. apply read_only_for_each. intros col.
  apply read_only_bind; [apply read_only_board_getitem|]. by intros cell.
Qed.

Section Stable.

Variable R : relation bot_state.
Hypothesis R_preorder : PreOrder R.

(** The computations on a game that [R] admits. *)
Variable admits : ∀ A, M A → Prop.
Variables (env : Env) (chat_id : Z).

Hypothesis R_send : ∀ c, stable R (send env c).
Hypothesis R_games_set :
  ∀ user is_private, stable R (games_set chat_id (start_game user is_private)).
Hypothesis R_on_game : ∀ A (m : M A), admits A m → stable R (on_game chat_id m).
Hypothesis admits_read_only : ∀ A (m : M A), read_only m → admits A m.
Hypothesis admits_make_move : ∀ r c m, admits bool (make_move r c m).
Hypothesis admits_join :
  ∀ p, admits unit (put (with_player_o (Some p))).

Lemma stable_hret {A} (a : A) : stable R (hret a).
Proof. intros st. reflexivity. Qed.

Lemma stable_or_fail {A} e (o : option A) : stable R (or_fail e o).
Proof. intros st. unfold or_fail. destruct o; reflexivity. Qed.

Lemma stable_games_get k : stable R (games_get k).
Proof. intros st. reflexivity. Qed.

Lemma stable_hbind {A B} (m : H A) (k : A → H B) :
  stable R m → (∀ a, stable R (k a)) → stable R (hbind m k).
Proof.
  intros Hm Hk st. unfold hbind. specialize (Hm st).
  destruct (m st) as [a st'|e st']; cbn in *; [|done].
  etrans; [exact Hm|apply Hk].
Qed.

Ltac stable_step :=
  first
    [ apply stable_hbind; [|intros ?]
    | apply stable_hret
    | apply stable_or_fail
    | apply stable_games_get
    | apply R_send
    | apply R_games_set
    | apply R_on_game;
      first [ apply admits_make_move
            | apply admits_join
            | apply admits_read_only;
              first [ apply read_only_get
                    | apply read_only_status_text
                    | apply read_only_build_board_keyboard
                    | apply read_only_build_game_over_keyboard
                    | apply read_only_bot_move ] ]
    | match goal with
      | |- stable _ (match ?x with _ => _ end) => destruct x
      end ].

Lemma stable_show_board : stable R (show_board env chat_id).
Proof. unfold show_board. repeat stable_step. Qed.

Lemma stable_show_game_over : stable R (show_game_over env chat_id).
Proof. unfold show_game_over. repeat stable_step. Qed.

Lemma stable_tictactoe_command chat_type user :
  stable R (tictactoe_command env chat_id chat_type user).
Proof. unfold tictactoe_command. repeat stable_step. Qed.

Lemma stable_callback_handler chat_type user data :
  stable R (callback_handler env chat_id chat_type user data).
Proof.
  unfold callback_handler.
  repeat first [ apply stable_show_board | apply stable_show_game_over
               | stable_step ].
Qed.

End Stable.

(** ** Handlers act on the game of their chat only *)

Lemma local_to_preorder chat_id : PreOrder (local_to chat_id).
Proof.
  split.
  - intros st. by split.
  - intros st1 st2 st3 [Hg12 Hs12] [Hg23 Hs23]. split.
    + intros k Hk. by rewrite Hg23, Hg12.
    + by etrans.
Qed.

Lemma local_to_send env chat_id c : stable (local_to chat_id) (send env c).
Proof.
  intros st. unfold send. destruct (delivered env c); cbn; [|done].
  split; [done|]. by apply prefix_app_r.
Qed.

Lemma local_to_games_set chat_id g :
  stable (local_to chat_id) (games_set chat_id g).
Proof.
  intros st. split; [|done]. intros k Hk. cbn. by rewrite lookup_insert_ne.
Qed.

Lemma local_to_on_game {A} chat_id (m : M A) :
  stable (local_to chat_id) (on_game chat_id m).
Proof.
  intros st. unfold on_game.
  destruct (games st !! chat_id) as [g|]; [|done].
  destruct (m g) as [a g'|e g']; (split; [|done]);
    intros k Hk; cbn; rewrite lookup_insert_ne; done.
Qed.

(** X18: a handler called for a chat leaves the games of all other
    chats as they were, and only adds to the calls made to Telegram,
    whatever the user and the data and whether it returns or raises. *)
Theorem handlers_are_local env chat_id chat_type user data st :
  local_to chat_id st
    (state_of (callback_handler env chat_id chat_type user data st)) ∧
  local_to chat_id st
    (state_of (tictactoe_command env chat_id chat_type user st)).
Proof.
  split.
  - apply (stable_callback_handler (local_to chat_id)
             (local_to_preorder chat_id) (λ _ _, True));
      auto using local_to_send, local_to_games_set, local_to_on_game.
  - apply (stable_tictactoe_command (local_to chat_id)
             (local_to_preorder chat_id) (λ _ _, True));
      auto using local_to_send, local_to_games_set, local_to_on_game.
Qed.

(** ** The games of the dictionary are games reached by play *)

Lemma keeps_registry_preorder : PreOrder keeps_registry.
Proof.
  split; [intros st H; exact H|].
  intros st1 st2 st3 H12 H23 H1. apply H23, H12, H1.
Qed.

Lemma good_registry_insert gs k g :
  good_registry gs → reachable g → is_Some (player_x g) →
  good_registry (<[k := g]> gs).
Proof.
  intros Hgs Hg Hx k' g'. rewrite lookup_insert. case_decide.
  - by intros [= <-].
  - apply Hgs.
Qed.

Lemma keeps_registry_on_game {A} chat_id (m : M A) :
  keeps_good A m → stable keeps_registry (on_game chat_id m).
Proof.
  intros Hm st Hgood. unfold on_game.
  destruct (games st !! chat_id) as [g|] eqn:Hg; [|done].
  destruct (Hgood _ _ Hg) as [Hreach Hx].
  destruct (Hm g Hreach Hx) as [Hreach' Hx'].
  destruct (m g) as [a g'|e g']; cbn in *; by apply good_registry_insert.
Qed.

Lemma make_move_player_x row col m g :
  wf_board (board g) →
  player_x (final_state (make_move row col m g)) = player_x g.
Proof.
  intros Hwf.
  destruct (make_move_outcomes row col m g Hwf)
    as [->|[->|(b' & _ & _ & _ & _ & ->)]]; [done|done|].
  cbn. by destruct (settle_frame m (with_board b' g)) as (_ & -> & _).
Qed.

Lemma start_game_good user is_private :
  reachable (start_game user is_private) ∧
  is_Some (player_x (start_game user is_private)).
Proof.
  unfold start_game. destruct is_private; (split; [|by eexists]).
  - apply reach_vs_bot, reach_player_o, reach_player_x, reach_new.
  - apply reach_player_x, reach_new.
Qed.

(** X19: the handlers keep the dictionary well formed: if every game it
    holds was reached by play from a fresh game and has its first
    player, the same holds after [callback_handler] and after
    [tictactoe_command], whatever the user and the data and whether the
    handler returns or raises. *)
Theorem handlers_keep_registry env chat_id chat_type user data st :
  good_registry (games st) →
  good_registry
    (games (state_of (callback_handler env chat_id chat_type user data st))) ∧
  good_registry
    (games (state_of (tictactoe_command env chat_id chat_type user st))).
Proof.
  assert (∀ c, stable keeps_registry (send env c)) as Hsend.
  { intros c st0 Hgood. unfold send. by destruct (delivered env c). }
  assert (∀ u p, stable keeps_registry (games_set chat_id (start_game u p)))
    as Hset.
  { intros u p st0 Hgood. destruct (start_game_good u p).
    by apply good_registry_insert. }
  assert (∀ A (m : M A), read_only m → keeps_good A m) as Hread.
  { intros A m Hm g Hreach Hx. by rewrite Hm. }
  assert (∀ r c m, keeps_good bool (make_move r c m)) as Hmove.
  { intros r c m g Hreach Hx. split; [by constructor|].
    rewrite make_move_player_x; [done|].
    by destruct (reachable_invariant g Hreach). }
  assert (∀ p, keeps_good unit (put (with_player_o (Some p)))) as Hjoin.
  { intros p g Hreach Hx. split; [by constructor|done]. }
  intros Hgood. split.
  - by apply (stable_callback_handler keeps_registry keeps_registry_preorder
                keeps_good env chat_id
                Hsend Hset (λ A m, keeps_registry_on_game chat_id m)
                Hread Hmove Hjoin).
  - by apply (stable_tictactoe_command keeps_registry keeps_registry_preorder
                keeps_good env chat_id
                Hsend Hset (λ A m, keeps_registry_on_game chat_id m) Hread).
Qed.

Lemma handlers_keep_registry_witness :
  let st := state_of (tictactoe_command sample_env 5 "private"
                        (User.mk 7 (Some "ann") "Ann") (mkState ∅ [])) in
  good_registry
    (games (state_of (callback_handler sample_env 5 "private"
                        (User.mk 7 (Some "ann") "Ann") "move_1_1" st))) ∧
  good_registry
    (games (state_of (tictactoe_command sample_env 5 "private"
                        (User.mk 7 (Some "ann") "Ann") st))).
Proof.
  apply (handlers_keep_registry sample_env 5 "private"
           (User.mk 7 (Some "ann") "Ann") "move_1_1").
  intros k g. vm_compute (games _).
  intros Hk. destruct (decide (k = 5)) as [->|Hne].
  - vm_compute in Hk. injection Hk as <-.
    split; [|by eexists].
    apply (reach_vs_bot (mkGame _ _ _ _ false _ _)),
      (reach_player_o (mkGame _ _ None _ _ _ _)),
      (reach_player_x (mkGame _ None _ _ _ _ _)), reach_new.
  - exfalso. revert Hk.
    change (GMap _) with (<[5 := start_game (User.mk 7 (Some "ann") "Ann") true]>
                            (∅ : gmap Z TicTacToe)).
    rewrite lookup_insert_ne, lookup_empty; done.
Defined.

(** ** Running a handler step by step *)

Lemma ends_state {A} (m : H A) st (P : bot_state → Prop) :
  ends m st (λ _ st', P st') → P (state_of (m st)).
Proof. unfold ends. by destruct (m st). Qed.

Lemma ends_done {A} (m : H A) st Q a st' :
  ends m st Q → m st = Done a st' → Q (Some a) st'.
Proof. unfold ends. intros H Heq. by rewrite Heq in H. Qed.

Lemma ends_hret {A} (a : A) st Q : Q (Some a) st → ends (hret a) st Q.
Proof. done. Qed.

Lemma ends_hbind {A B} (m : H A) (k : A → H B) st Q :
  ends m st (λ o st',
    match o with Some a => ends (k a) st' Q | None => Q None st' end) →
  ends (hbind m k) st Q.
Proof. unfold ends, hbind. by destruct (m st). Qed.

Lemma ends_send env c st (Q : option unit → bot_state → Prop) :
  (delivered env c = true → Q (Some tt) (mkState (games st) (sent st ++ [c]))) →
  (delivered env c = false → Q None st) →
  ends (send env c) st Q.
Proof. unfold ends, send. destruct (delivered env c); auto. Qed.

Lemma ends_or_fail {A} e (o : option A) st Q :
  (∀ a, o = Some a → Q (Some a) st) → (o = None → Q None st) →
  ends (or_fail e o) st Q.
Proof. unfold ends, or_fail. destruct o; auto. Qed.

Lemma ends_games_get k st Q :
  Q (Some (games st !! k)) st → ends (games_get k) st Q.
Proof. done. Qed.

Lemma ends_games_set k g st (Q : option unit → bot_state → Prop) :
  Q (Some tt) (mkState (<[k := g]> (games st)) (sent st)) →
  ends (games_set k g) st Q.
Proof. done. Qed.

Lemma ends_on_game {A} k (m : M A) g st Q :
  games st !! k = Some g →
  (∀ a g', m g = Return a g' →
           Q (Some a) (mkState (<[k := g']> (games st)) (sent st))) →
  (∀ e g', m g = Raise e g' →
           Q None (mkState (<[k := g']> (games st)) (sent st))) →
  ends (on_game k m) st Q.
Proof.
  intros Hg Hret Hraise. unfold ends, on_game. rewrite Hg.
  destruct (m g) as [a g'|e g']; eauto.
Qed.

Lemma state_insert_same k g st :
  games st !! k = Some g → mkState (<[k := g]> (games st)) (sent st) = st.
Proof. intros Hg. destruct st as [gs log]. cbn in *. by rewrite insert_id. Qed.

Lemma ends_on_game_read {A} k (m : M A) g st Q :
  games st !! k = Some g → read_only m →
  (∀ a, m g = Return a g → Q (Some a) st) → Q None st →
  ends (on_game k m) st Q.
Proof.
  intros Hg Hm Hret Hraise. apply (ends_on_game k m g); [done| |];
    intros x g' Hrun; pose proof (Hm g) as Hfin; rewrite Hrun in Hfin;
    cbn in Hfin; subst g'; rewrite state_insert_same by done; auto.
Qed.

Lemma ends_on_game_get {A} k (f : TicTacToe → A) g st Q :
  games st !! k = Some g → Q (Some (f g)) st →
  ends (on_game k (get f)) st Q.
Proof.
  intros Hg HQ. apply (ends_on_game k _ g); [done| |done].
  intros a g' [= <- <-]. by rewrite state_insert_same.
Qed.

(** Steps that read the game of the chat and show it leave the games
    as they are. *)
Lemma ends_show_board env k g st (Q : option unit → bot_state → Prop) :
  games st !! k = Some g →
  (∀ st', games st' = games st → ∀ o, Q o st') →
  ends (show_board env k) st Q.
Proof.
  intros Hg HQ. unfold show_board.
  apply ends_hbind, (ends_on_game_read k _ g);
    [done|apply read_only_status_text| |by apply HQ].
  intros text _.
  apply ends_hbind, (ends_on_game_read k _ g);
    [done|apply read_only_build_board_keyboard| |by apply HQ].
  intros kb _. apply ends_send; intros _; by apply HQ.
Qed.

Lemma ends_show_game_over env k g st (Q : option unit → bot_state → Prop) :
  games st !! k = Some g →
  (∀ st', games st' = games st → ∀ o, Q o st') →
  ends (show_game_over env k) st Q.
Proof.
  intros Hg HQ. unfold show_game_over.
  apply ends_hbind, (ends_on_game_read k _ g);
    [done|apply read_only_status_text| |by apply HQ].
  intros text _.
  apply ends_hbind, (ends_on_game_read k _ g);
    [done|apply read_only_build_game_over_keyboard| |by apply HQ].
  intros kb _. apply ends_send; intros _; by apply HQ.
Qed.

Lemma ends_start env k chat_type user st (send_it : string → InlineKeyboardMarkup → call)
    (Q : option unit → bot_state → Prop) :
  let game := start_game user (bool_decide (chat_type = "private")) in
  (∀ st', games st' = <[k := game]> (games st) → ∀ o, Q o st') →
  ends (if bool_decide (chat_type = "private") then
          games_set k game ;;;
          let! text := on_game k status_text in
          let! keyboard := on_game k (build_board_keyboard false) in
          send env (send_it text keyboard)
        else
          games_set k game ;;;
          let! name := or_fail AttributeError (username <$> player_x game) in
          send env (send_it (wants_to_play name) build_board_with_join)) st Q.
Proof.
  intros game HQ.
  destruct (bool_decide (chat_type = "private"));
    apply ends_hbind, ends_games_set.
  - apply ends_hbind, (ends_on_game_read k _ game);
      [apply lookup_insert_eq|apply read_only_status_text| |by apply HQ].
    intros text _.
    apply ends_hbind, (ends_on_game_read k _ game);
      [apply lookup_insert_eq|apply read_only_build_board_keyboard|
      |by apply HQ].
    intros kb _. apply ends_send; intros _; by apply HQ.
  - apply ends_hbind, ends_or_fail; [|intros _; by apply HQ].
    intros name _. apply ends_send; intros _; by apply HQ.
Qed.

(** X20: [tictactoe_command] puts a fresh game in the dictionary for
    its chat, with the user as first player and in a private chat the
    bot as second, whatever game the chat had and even when the reply
    to Telegram raises; the ["play_again"] button does the same once
    its query is answered, and nothing when answering raises. *)
Theorem new_game_replaces_the_old env chat_id chat_type user st :
  let game := start_game user (bool_decide (chat_type = "private")) in
  games (state_of (tictactoe_command env chat_id chat_type user st)) =
    <[chat_id := game]> (games st) ∧
  games (state_of (callback_handler env chat_id chat_type user "play_again" st)) =
    (if delivered env (answer None false)
     then <[chat_id := game]> (games st) else games st).
Proof.
  intros game. split.
  - apply (ends_state _ st (λ st', games st' = _)).
    unfold tictactoe_command. cbn zeta.
    apply (ends_start env chat_id chat_type user st reply_text). auto.
  - apply (ends_state _ st (λ st', games st' = _)).
    unfold callback_handler. cbn [bool_decide decide_rel].
    rewrite bool_decide_eq_true_2 by done.
    apply ends_hbind, ends_send; intros Hd; rewrite Hd; [|done].
    apply (ends_start env chat_id chat_type user _ edit_message_text). auto.
Qed.

(** ** Who may change a game *)

Lemma prefix_app s1 s2 :
  String.prefix s1 s2 = true → ∃ t, s2 = s1 +:+ t.
Proof.
  revert s2. induction s1 as [|a s1 IH]; intros s2; [by exists s2|].
  destruct s2 as [|b s2]; cbn; [done|].
  destruct (ascii_dec a b) as [->|]; [|done].
  intros (t & ->)%IH. by exists t.
Qed.

Lemma prefix_append s t : String.prefix s (s +:+ t) = true.
Proof.
  induction s as [|a s IH]; [by destruct t|].
  change (String a s +:+ t) with (String a (s +:+ t)). cbn [String.prefix].
  destruct (ascii_dec a a) as [_|Hne]; [exact IH|done].
Qed.

(** Data that starts with ["move_"] reaches the last branch of
    [callback_handler]. *)
Lemma move_data_branch data :
  String.prefix "move_" data = true →
  bool_decide (data = "play_again") = false ∧
  bool_decide (data = "join_o") = false ∧
  String.prefix "wait_" data = false ∧ String.prefix "noop_" data = false.
Proof.
  intros (t & ->)%prefix_app.
  split; [by apply bool_decide_eq_false_2|].
  split; [by apply bool_decide_eq_false_2|]. done.
Qed.

(** X21: a press on a move button by a user who is not the player
    whose turn it is changes no game: the handler answers that the user
    is not in the game or that it is not their turn (or raises on data
    it cannot parse) before [make_move] is reached. *)
Theorem only_the_player_to_move_moves env chat_id chat_type user data st g cur :
  String.prefix "move_" data = true →
  games st !! chat_id = Some g →
  get_current_player g = Return (Some cur) g →
  User.id user ≠ user_id cur →
  games (state_of (callback_handler env chat_id chat_type user data st)) =
  games st.
Proof.
  intros Hdata Hg Hcur Hne.
  rewrite get_current_player_run in Hcur. injection Hcur as Hcur.
  destruct (move_data_branch data Hdata) as (H1 & H2 & H3 & H4).
  apply (ends_state _ st (λ st', games st' = games st)).
  unfold callback_handler. rewrite H1, H2, H3, H4, Hdata.
  apply ends_hbind, ends_games_get. rewrite Hg.
  apply ends_hbind, (ends_on_game_get chat_id player_o g); [done|].
  destruct (player_o g) as [po|] eqn:Hpo;
    [|by apply ends_send].
  apply ends_hbind, ends_or_fail; [|done]. intros rc _.
  apply ends_hbind, (ends_on_game_get chat_id player_x g); [done|].
  apply ends_hbind, ends_or_fail; [|done]. intros x_id Hx.
  apply ends_hbind, ends_or_fail; [|done]. intros o_id [= <-].
  destruct (player_x g) as [px|] eqn:Hpx; [|done]. injection Hx as <-.
  destruct (decide (User.id user = user_id px)) as [Hux|Hux];
    [rewrite (bool_decide_eq_true_2 _ Hux)
    |rewrite (bool_decide_eq_false_2 _ Hux)]; cbn [negb andb].
  - apply ends_hbind, (ends_on_game_get chat_id current_turn g); [done|].
    destruct (Cell.eqb (current_turn g) Cell.X) eqn:Hturn.
    { injection Hcur as <-. done. }
    replace (Cell.eqb Cell.X (current_turn g)) with false
      by (by destruct (current_turn g)).
    by apply ends_send.
  - destruct (decide (User.id user = user_id po)) as [Huo|Huo];
      [rewrite (bool_decide_eq_true_2 _ Huo)
      |rewrite (bool_decide_eq_false_2 _ Huo)]; cbn [negb andb];
      [|by apply ends_send].
    apply ends_hbind, (ends_on_game_get chat_id current_turn g); [done|].
    destruct (Cell.eqb (current_turn g) Cell.X) eqn:Hturn.
    + replace (Cell.eqb Cell.O (current_turn g)) with false
        by (by destruct (current_turn g)).
      by apply ends_send.
    + injection Hcur as <-. done.
Qed.

(** X22: the ["join_o"] button on a game that has its second player
    changes nothing, and neither does a press by the first player; a
    press by anyone else on a game that waits binds that user to [O],
    leaving the board, the turn and the first player, whether or not
    the calls to Telegram that follow go through. *)
Theorem join_binds_the_second_player env chat_id chat_type user st g :
  games st !! chat_id = Some g →
  let st' := state_of (callback_handler env chat_id chat_type user "join_o" st) in
  (is_Some (player_o g) → games st' = games st) ∧
  (∀ px, player_x g = Some px → User.id user = user_id px →
         games st' = games st) ∧
  (∀ px, player_o g = None → player_x g = Some px →
         User.id user ≠ user_id px →
         games st' =
         <[chat_id :=
             with_player_o
               (Some (mkPlayer (User.id user) (get_display_name user) Cell.O)) g]>
           (games st)).
Proof.
  intros Hg st'.
  assert (ends (callback_handler env chat_id chat_type user "join_o") st
            (λ _ st',
               match player_o g, player_x g with
               | Some _, _ | None, None => games st' = games st
               | None, Some px =>
                   if decide (User.id user = user_id px)
                   then games st' = games st
                   else games st' =
                        <[chat_id :=
                            with_player_o
                              (Some (mkPlayer (User.id user)
                                       (get_display_name user) Cell.O)) g]>
                          (games st)
               end)) as Hends.
  { unfold callback_handler.
    rewrite (bool_decide_eq_false_2 ("join_o" = "play_again")) by done.
    rewrite (bool_decide_eq_true_2 ("join_o" = "join_o")) by done.
    apply ends_hbind, ends_games_get. rewrite Hg.
    apply ends_hbind, (ends_on_game_get chat_id player_o g); [done|].
    destruct (player_o g) as [po|] eqn:Hpo; [by apply ends_send|].
    apply ends_hbind, (ends_on_game_get chat_id player_x g); [done|].
    destruct (player_x g) as [px|] eqn:Hpx;
      [|by apply ends_hbind, ends_or_fail].
    apply ends_hbind, ends_or_fail; [|done]. intros x_id [= <-].
    destruct (decide (User.id user = user_id px)) as [Hux|Hux];
      [rewrite (bool_decide_eq_true_2 _ Hux); by apply ends_send
      |rewrite (bool_decide_eq_false_2 _ Hux)].
    apply ends_hbind, (ends_on_game chat_id _ g); [done| |done].
    intros [] g' [= <-].
    apply ends_hbind, ends_send; [intros _|done].
    eapply ends_show_board; [apply lookup_insert_eq|].
    by intros st0 -> _. }
  apply ends_state in Hends. fold st' in Hends.
  split; [|split].
  - intros [po Hpo]. by rewrite Hpo in Hends.
  - intros px Hpx Hux. rewrite Hpx in Hends.
    destruct (player_o g); [done|]. by rewrite decide_True in Hends.
  - intros px Hpo Hpx Hux. rewrite Hpo, Hpx in Hends.
    by rewrite decide_False in Hends.
Qed.

(** ** The bot answers at once *)

Lemma settle_turn m g :
  game_over g = false →
  is_vs_bot (settle m g) = is_vs_bot g ∧
  (game_over (settle m g) = true ∨
   game_over (settle m g) = false ∧
   current_turn (settle m g) = next_turn (current_turn g)).
Proof.
  intros Hover. split; [by destruct (settle_frame m g) as (_ & _ & _ & ->)|].
  unfold settle.
  destruct (bool_decide (has_line (board g) m)); [by left|].
  destruct (bool_decide (full (board g))); [by left|]. by right.
Qed.

(** On a game reached by play that is not terminal, with [O] to move,
    [bot_move] returns a move and [make_move] accepts it. *)
Lemma bot_reply shuffle g :
  (∀ l, shuffle l ≡ₚ l) →
  reachable g → game_over g = false → current_turn g = Cell.O →
  ∃ r c b', bot_move shuffle g = Return (Some (r, c)) g ∧
    cell_at (board g) (r, c) = Some Cell.EMPTY ∧
    board_update (board g) (r, c) Cell.O = Some b' ∧
    make_move r c Cell.O g = Return true (settle Cell.O (with_board b' g)).
Proof.
  intros Hperm Hreach Hover Hturn.
  destruct (reachable_invariant g Hreach) as (Hwf & _).
  destruct (reachable_outcome_invariant g Hreach) as (_ & _ & Hnf).
  destruct (not_full_empty_cell (board g) Hwf (Hnf Hover)) as (q & Hq & Hqe).
  destruct (bot_move_cases shuffle Hperm g Hwf Hover Hturn) as (o & Hrun & Hcases).
  assert (∃ p, o = Some p ∧ empty_at (board g) p) as ([r c] & -> & He).
  { destruct Hcases as [(p & -> & Hg)|(_ & [(p & -> & Hg)|(_ & Hc)])];
      [exists p; split; [done|by apply first_gap_empty in Hg as [_ ?]]
      |exists p; split; [done|by apply first_gap_empty in Hg as [_ ?]]|].
    destruct Hc as [[-> ?]|[Hcentre [(p & -> & _ & ?)|(Hnc & Hc)]]];
      [by eexists|by eexists|].
    destruct Hc as [(p & -> & _ & ?)|[_ Hne]]; [by eexists|].
    exfalso. destruct (in_range_kinds q Hq) as [->|[Hk|Hk]];
      [done|by apply (Hnc q)|by apply (Hne q)]. }
  destruct (make_move_empty_cell g (r, c) Hwf Hover He) as (b' & Hup & Hmove).
  rewrite Hturn in Hmove, Hup. by exists r, c, b'.
Qed.

(** X23: in a game against the bot where the bot has answered (the
    game is terminal or [X] is to move), whatever button is pressed by
    whatever user, if [callback_handler] returns then again the bot has
    answered in the game of the chat: after an accepted move of [X] that
    leaves the game open the handler makes the bot's move before it
    returns.  The chat keeps a game throughout. *)
Theorem bot_answers_at_once env chat_id chat_type user data st g st' :
  (∀ l, shuffle_of env l ≡ₚ l) →
  games st !! chat_id = Some g → reachable g →
  is_vs_bot g = true → bot_has_answered g →
  callback_handler env chat_id chat_type user data st = Done tt st' →
  ∃ g', games st' !! chat_id = Some g' ∧ bot_has_answered g'.
Proof.
  intros Hperm Hg Hreach Hvs Hans Hrun.
  set (P := λ st0 : bot_state,
         ∃ g', games st0 !! chat_id = Some g' ∧ bot_has_answered g').
  assert (∀ st0, games st0 = games st → P st0) as Hsame.
  { intros st0 Heq. exists g. by rewrite Heq. }
  assert (∀ st0 g0, games st0 !! chat_id = Some g0 → bot_has_answered g0 →
                    P st0) as Hone.
  { intros st0 g0 Hg0 Hans0. by exists g0. }
  enough (ends (callback_handler env chat_id chat_type user data) st
            (λ o st0, match o with Some _ => P st0 | None => True end))
    as Hends by exact (ends_done _ _ _ _ _ Hends Hrun).
  clear Hrun st'. unfold callback_handler.
  destruct (bool_decide (data = "play_again")).
  { apply ends_hbind, ends_send; [intros _|done].
    apply ends_start. intros st0 Heq [o|]; [|done].
    apply (Hone st0 (start_game user (bool_decide (chat_type = "private")))).
    - rewrite Heq. apply lookup_insert_eq.
    - intros _. right. unfold start_game. by destruct (bool_decide _). }
  destruct (bool_decide (data = "join_o")).
  { apply ends_hbind, ends_games_get. rewrite Hg.
    apply ends_hbind, (ends_on_game_get chat_id player_o g); [done|].
    destruct (player_o g) as [po|];
      [apply ends_send; [intros _; by apply Hsame|done]|].
    apply ends_hbind, (ends_on_game_get chat_id player_x g); [done|].
    apply ends_hbind, ends_or_fail; [|done]. intros x_id _.
    destruct (bool_decide (User.id user = x_id));
      [apply ends_send; [intros _; by apply Hsame|done]|].
    apply ends_hbind, (ends_on_game chat_id _ g); [done| |done].
    intros [] g' [= <-].
    apply ends_hbind, ends_send; [intros _|done].
    eapply ends_show_board; [apply lookup_insert_eq|].
    intros st0 Heq [o|]; [|done].
    eapply Hone; [rewrite Heq; apply lookup_insert_eq|]. exact Hans. }
  destruct (String.prefix "wait_" data);
    [apply ends_send; [intros _; by apply Hsame|done]|].
  destruct (String.prefix "noop_" data);
    [apply ends_send; [intros _; by apply Hsame|done]|].
  destruct (String.prefix "move_" data); [|by apply ends_hret, Hsame].
  apply ends_hbind, ends_games_get. rewrite Hg.
  apply ends_hbind, (ends_on_game_get chat_id player_o g); [done|].
  destruct (player_o g) as [po|];
    [|apply ends_send; [intros _; by apply Hsame|done]].
  apply ends_hbind, ends_or_fail; [|done]. intros [r c] _.
  apply ends_hbind, (ends_on_game_get chat_id player_x g); [done|].
  apply ends_hbind, ends_or_fail; [|done]. intros x_id _.
  apply ends_hbind, ends_or_fail; [|done]. intros o_id _.
  destruct (negb (bool_decide (User.id user = x_id))
            && negb (bool_decide (User.id user = o_id)));
    [apply ends_send; [intros _; by apply Hsame|done]|].
  set (cell := if bool_decide (User.id user = x_id) then Cell.X else Cell.O).
  apply ends_hbind, (ends_on_game_get chat_id current_turn g); [done|].
  rewrite eqb_decide.
  destruct (decide (cell = current_turn g)) as [Hcell|Hcell];
    [rewrite (bool_decide_eq_true_2 _ Hcell)
    |rewrite (bool_decide_eq_false_2 _ Hcell);
     apply ends_send; [intros _; by apply Hsame|done]].
  cbn [negb fst snd].
  destruct (reachable_invariant g Hreach) as (Hwf & _).
  apply ends_hbind, (ends_on_game chat_id _ g); [done| |done].
  intros ok g1 Hmove.
  destruct (make_move_outcomes r c cell g Hwf)
    as [Hr|[Hr|(b' & Hover & _ & _ & _ & Hr)]];
    rewrite Hr in Hmove; [|done|]; injection Hmove as <- <-; cbn [negb].
  { apply ends_send; [intros _|done].
    eapply Hone; [apply lookup_insert_eq|done]. }
  assert (current_turn g = Cell.X) as Hturn
    by (destruct (Hans Hvs); congruence).
  rewrite Hturn in Hcell. rewrite Hcell. rewrite Hcell in Hr.
  set (g1 := settle Cell.X (with_board b' g)).
  assert (reachable g1) as Hreach1.
  { replace g1 with (final_state (make_move r c Cell.X g));
      [by constructor|]. by rewrite Hr. }
  destruct (settle_turn Cell.X (with_board b' g) Hover) as [Hvs1 Hturn1].
  fold g1 in Hvs1, Hturn1. cbn in Hvs1, Hturn1. rewrite Hturn in Hturn1.
  apply ends_hbind, ends_send; [intros _|done].
  apply ends_hbind, (ends_on_game_get chat_id game_over g1);
    [apply lookup_insert_eq|].
  destruct Hturn1 as [Hover1|[Hover1 Hturn1]]; rewrite Hover1.
  { eapply ends_show_game_over; [apply lookup_insert_eq|].
    intros st0 Heq [o|]; [|done].
    eapply Hone; [rewrite Heq; apply lookup_insert_eq|]. intros _. by left. }
  apply ends_hbind, (ends_on_game_get chat_id is_vs_bot g1);
    [apply lookup_insert_eq|].
  apply ends_hbind, (ends_on_game_get chat_id current_turn g1);
    [apply lookup_insert_eq|].
  rewrite Hvs1, Hvs, Hturn1. cbn [andb next_turn Cell.eqb].
  destruct (bot_reply (shuffle_of env) g1 Hperm Hreach1 Hover1 Hturn1)
    as (r2 & c2 & b2 & Hbot & _ & _ & Hmove2).
  apply ends_hbind, (ends_on_game_read chat_id _ g1);
    [apply lookup_insert_eq|apply read_only_bot_move| |done].
  intros bot_pos Hbot'. rewrite Hbot in Hbot'. injection Hbot' as <-.
  apply ends_hbind, ends_hbind, (ends_on_game chat_id _ g1);
    [apply lookup_insert_eq| |by rewrite Hmove2].
  intros ok g2 Hmove2'. rewrite Hmove2 in Hmove2'. injection Hmove2' as <- <-.
  apply ends_hret.
  set (g2 := settle Cell.O (with_board b2 g1)).
  assert (bot_has_answered g2) as Hans2.
  { intros _. destruct (settle_turn Cell.O (with_board b2 g1))
      as [_ [?|[_ Ht]]]; [done|by left|].
    right. fold g2 in Ht. rewrite Ht. cbn. by rewrite Hturn1. }
  apply ends_hbind, (ends_on_game_get chat_id game_over g2);
    [apply lookup_insert_eq|].
  destruct (game_over g2).
  - eapply ends_show_game_over; [apply lookup_insert_eq|].
    intros st0 Heq [o|]; [|done].
    eapply Hone; [rewrite Heq; apply lookup_insert_eq|done].
  - eapply ends_show_board; [apply lookup_insert_eq|].
    intros st0 Heq [o|]; [|done].
    eapply Hone; [rewrite Heq; apply lookup_insert_eq|done].
Qed.

(** ** From the button to the board *)

Lemma parse_move_button env r c :
  (∀ n, 0 ≤ n ≤ 2 → int_of env (str n) = Some n) →
  0 ≤ r ≤ 2 → 0 ≤ c ≤ 2 →
  parse_move env ("move_" +:+ str r +:+ "_" +:+ str c) = Some (r, c).
Proof.
  intros Hdigits Hr Hc.
  assert (int_of env "0" = Some 0) as H0 by (apply (Hdigits 0); lia).
  assert (int_of env "1" = Some 1) as H1 by (apply (Hdigits 1); lia).
  assert (int_of env "2" = Some 2) as H2 by (apply (Hdigits 2); lia).
  assert (r = 0 ∨ r = 1 ∨ r = 2) as [->|[->| ->]] by lia;
    assert (c = 0 ∨ c = 1 ∨ c = 2) as [->|[->| ->]] by lia;
    unfold parse_move; lazy -[int_of mbind]; rewrite ?H0, ?H1, ?H2; cbn;
    rewrite ?H0, ?H1, ?H2; reflexivity.
Qed.

(** A mark on the board is still there after a move elsewhere. *)
Lemma mark_stays b p q m v b' :
  wf_board b → cell_at b p = Some Cell.EMPTY → cell_at b q = Some v →
  v ≠ Cell.EMPTY → board_update b p m = Some b' → cell_at b' q = Some v.
Proof.
  intros Hwf Hp Hq Hv Hup.
  rewrite (cell_at_board_update b p m b' q Hwf Hup).
  destruct (decide (slot q = slot p)) as [Heq|]; [|done].
  destruct (slot_eq_board_ops b q p m Hwf Heq) as [Hcell _]. congruence.
Qed.

(** X24: when the player whose turn it is presses the button the
    keyboard shows on an empty cell of a game that is not terminal,
    the game of the chat has that player's mark in that cell when the
    handler ends, whether or not the calls to Telegram go through, and
    also after the move the bot makes in reply. *)
Theorem pressed_move_is_played env chat_id chat_type user st g px po r c :
  (∀ l, shuffle_of env l ≡ₚ l) →
  (∀ n, 0 ≤ n ≤ 2 → int_of env (str n) = Some n) →
  games st !! chat_id = Some g → reachable g → game_over g = false →
  player_x g = Some px → player_o g = Some po →
  0 ≤ r ≤ 2 → 0 ≤ c ≤ 2 → cell_at (board g) (r, c) = Some Cell.EMPTY →
  (current_turn g = Cell.X ∧ User.id user = user_id px ∨
   current_turn g = Cell.O ∧ User.id user = user_id po ∧
   User.id user ≠ user_id px) →
  ∃ g', games (state_of (callback_handler env chat_id chat_type user
                           ("move_" +:+ str r +:+ "_" +:+ str c) st))
          !! chat_id = Some g' ∧
        cell_at (board g') (r, c) = Some (current_turn g).
Proof.
  intros Hperm Hdigits Hg Hreach Hover Hpx Hpo Hr Hc Hcell Huser.
  set (data := "move_" +:+ str r +:+ "_" +:+ str c).
  set (Q := λ st0 : bot_state,
         ∃ g', games st0 !! chat_id = Some g' ∧
               cell_at (board g') (r, c) = Some (current_turn g)).
  apply (ends_state _ st Q).
  assert (String.prefix "move_" data = true) as Hdata
    by apply (prefix_append "move_").
  destruct (move_data_branch data Hdata) as (H1 & H2 & H3 & H4).
  unfold callback_handler. rewrite H1, H2, H3, H4, Hdata.
  apply ends_hbind, ends_games_get. rewrite Hg.
  apply ends_hbind, (ends_on_game_get chat_id player_o g); [done|].
  rewrite Hpo.
  assert (parse_move env data = Some (r, c)) as Hparse
    by (by apply parse_move_button).
  rewrite Hparse.
  apply ends_hbind, ends_or_fail; [|done]. intros rc [= <-].
  apply ends_hbind, (ends_on_game_get chat_id player_x g); [done|].
  rewrite Hpx. cbn [fmap option_fmap option_map].
  apply ends_hbind, ends_or_fail; [|done]. intros x_id [= <-].
  apply ends_hbind, ends_or_fail; [|done]. intros o_id [= <-].
  assert ((if bool_decide (User.id user = user_id px) then Cell.X else Cell.O)
          = current_turn g ∧
          negb (bool_decide (User.id user = user_id px))
          && negb (bool_decide (User.id user = user_id po)) = false)
    as [Hmark ->].
  { destruct Huser as [[-> Hu]|(-> & Hu & Hnx)].
    - by rewrite (bool_decide_eq_true_2 _ Hu).
    - by rewrite (bool_decide_eq_false_2 _ Hnx), (bool_decide_eq_true_2 _ Hu). }
  rewrite Hmark.
  apply ends_hbind, (ends_on_game_get chat_id current_turn g); [done|].
  rewrite eqb_decide, bool_decide_eq_true_2 by done. cbn [negb fst snd].
  destruct (reachable_invariant g Hreach) as (Hwf & Hturn & _).
  destruct (make_move_empty_cell g (r, c) Hwf Hover Hcell) as (b' & Hup & Hmove).
  cbn [fst snd] in Hmove.
  set (g1 := settle (current_turn g) (with_board b' g)) in *.
  assert (board g1 = b') as Hb1
    by (destruct (settle_frame (current_turn g) (with_board b' g)) as [Hb _];
        exact Hb).
  assert (cell_at (board g1) (r, c) = Some (current_turn g)) as Hcell1
    by (rewrite Hb1; by eapply cell_at_board_update_same).
  assert (reachable g1) as Hreach1.
  { replace g1 with (final_state (make_move r c (current_turn g) g));
      [by constructor|]. by rewrite Hmove. }
  assert (∀ st0, games st0 !! chat_id = Some g1 → Q st0) as Hone
    by (intros st0 Hst0; by exists g1).
  apply ends_hbind, (ends_on_game chat_id _ g); [done| |by rewrite Hmove].
  intros ok g1'. rewrite Hmove. intros [= <- <-]. cbn [negb].
  apply ends_hbind, ends_send; [intros _|intros _; apply Hone, lookup_insert_eq].
  apply ends_hbind, (ends_on_game_get chat_id game_over g1);
    [apply lookup_insert_eq|].
  destruct (game_over g1) eqn:Hover1.
  { eapply ends_show_game_over; [apply lookup_insert_eq|].
    intros st0 Heq _. apply Hone. rewrite Heq. apply lookup_insert_eq. }
  apply ends_hbind, (ends_on_game_get chat_id is_vs_bot g1);
    [apply lookup_insert_eq|].
  apply ends_hbind, (ends_on_game_get chat_id current_turn g1);
    [apply lookup_insert_eq|].
  destruct (is_vs_bot g1 && Cell.eqb (current_turn g1) Cell.O) eqn:Hbot;
    [|eapply ends_show_board; [apply lookup_insert_eq|];
      intros st0 Heq _; apply Hone; rewrite Heq; apply lookup_insert_eq].
  apply andb_true_iff in Hbot as [_ Hturn1].
  rewrite eqb_decide in Hturn1. apply bool_decide_eq_true_1 in Hturn1.
  destruct (bot_reply (shuffle_of env) g1 Hperm Hreach1 Hover1 Hturn1)
    as (r2 & c2 & b2 & Hbot & He2 & Hup2 & Hmove2).
  apply ends_hbind, (ends_on_game_read chat_id _ g1);
    [apply lookup_insert_eq|apply read_only_bot_move|
    |apply Hone, lookup_insert_eq].
  intros bot_pos Hbot'. rewrite Hbot in Hbot'. injection Hbot' as <-.
  apply ends_hbind, ends_hbind, (ends_on_game chat_id _ g1);
    [apply lookup_insert_eq| |by rewrite Hmove2].
  intros ok g2 Hmove2'. rewrite Hmove2 in Hmove2'. injection Hmove2' as <- <-.
  apply ends_hret.
  set (g2 := settle Cell.O (with_board b2 g1)).
  assert (cell_at (board g2) (r, c) = Some (current_turn g)) as Hcell2.
  { destruct (settle_frame Cell.O (with_board b2 g1)) as [Hb2 _].
    fold g2 in Hb2. rewrite Hb2. cbn [board with_board].
    destruct (reachable_invariant g1 Hreach1) as (Hwf1 & _).
    apply (mark_stays (board g1) (r2, c2) (r, c) Cell.O); try done.
    destruct Hturn as [-> | ->]; done. }
  assert (∀ st0, games st0 !! chat_id = Some g2 → Q st0) as Htwo
    by (intros st0 Hst0; by exists g2).
  apply ends_hbind, (ends_on_game_get chat_id game_over g2);
    [apply lookup_insert_eq|].
  destruct (game_over g2).
  - eapply ends_show_game_over; [apply lookup_insert_eq|].
    intros st0 Heq _. apply Htwo. rewrite Heq. apply lookup_insert_eq.
  - eapply ends_show_board; [apply lookup_insert_eq|].
    intros st0 Heq _. apply Htwo. rewrite Heq. apply lookup_insert_eq.
Qed.

(** ** The theorems at work on a private chat *)

Lemma status_text_reports_witness :
  let g := start_game (User.mk 7 (Some "ann") "Ann") true in
  let px := mkPlayer 7 "@ann" Cell.X in
  let po := mkPlayer 0 "Bot 🤖" Cell.O in
  ∃ s, status_text g = Return s g ∧
    ((game_over g = false ∧
      ∃ cur, (current_turn g = Cell.X ∧ cur = px ∨
              current_turn g = Cell.O ∧ cur = po) ∧
        s = "Tic-Tac-Toe" +:+ nl +:+ nl +:+ SYMBOLS (symbol cur) +:+ " "
            +:+ username cur +:+ "'s turn") ∨
     (game_over g = true ∧
      ∃ w p, winner g = Some w ∧ has_line (board g) w ∧
        (w = Cell.X ∧ p = px ∨ w = Cell.O ∧ p = po) ∧
        s = "🏆 " +:+ SYMBOLS (symbol p) +:+ " " +:+ username p +:+ " wins!") ∨
     (game_over g = true ∧ winner g = None ∧ full (board g) ∧
      (∀ line, line ∈ WIN_LINES → ¬ monochrome (board g) line) ∧
      s = "🤝 It's a draw!")) ∧
    (s = "🤝 It's a draw!" →
     game_over g = true ∧ winner g = None ∧ full (board g) ∧
     ∀ line, line ∈ WIN_LINES → ¬ monochrome (board g) line) ∧
    (String.prefix "🏆 " s = true →
     game_over g = true ∧ ∃ w, winner g = Some w ∧ has_line (board g) w) ∧
    (String.prefix "Tic-Tac-Toe" s = true → game_over g = false).
Proof.
  apply (status_text_reports (start_game (User.mk 7 (Some "ann") "Ann") true)
           (mkPlayer 7 "@ann" Cell.X) (mkPlayer 0 "Bot 🤖" Cell.O)).
  - lazy beta zeta iota delta [start_game].
    apply reach_vs_bot, reach_player_o, reach_player_x, reach_new.
  - reflexivity.
  - reflexivity.
Defined.

Lemma only_the_player_to_move_moves_witness :
  let g := start_game (User.mk 7 (Some "ann") "Ann") true in
  let st := mkState {[5 := g]} [] in
  games (state_of (callback_handler sample_env 5 "private"
                     (User.mk 9 None "Bob") "move_0_0" st)) =
  games st.
Proof.
  apply (only_the_player_to_move_moves sample_env 5 "private"
           (User.mk 9 None "Bob") "move_0_0"
           (mkState {[5 := start_game (User.mk 7 (Some "ann") "Ann") true]} [])
           (start_game (User.mk 7 (Some "ann") "Ann") true)
           (mkPlayer 7 "@ann" Cell.X)).
  - reflexivity.
  - apply lookup_singleton_eq.
  - reflexivity.
  - cbn. lia.
Defined.

Lemma join_binds_the_second_player_witness :
  let g := start_game (User.mk 7 (Some "ann") "Ann") false in
  let st := mkState {[5 := g]} [] in
  let st' := state_of (callback_handler sample_env 5 "group"
                         (User.mk 9 None "Bob") "join_o" st) in
  (is_Some (player_o g) → games st' = games st) ∧
  (∀ px, player_x g = Some px → User.id (User.mk 9 None "Bob") = user_id px →
         games st' = games st) ∧
  (∀ px, player_o g = None → player_x g = Some px →
         User.id (User.mk 9 None "Bob") ≠ user_id px →
         games st' =
         <[5 := with_player_o
                  (Some (mkPlayer (User.id (User.mk 9 None "Bob"))
                           (get_display_name (User.mk 9 None "Bob")) Cell.O)) g]>
           (games st)).
Proof.
  apply (join_binds_the_second_player sample_env 5 "group"
           (User.mk 9 None "Bob")
           (mkState {[5 := start_game (User.mk 7 (Some "ann") "Ann") false]} [])
           (start_game (User.mk 7 (Some "ann") "Ann") false)).
  apply lookup_singleton_eq.
Defined.

Lemma bot_answers_at_once_witness :
  let g := start_game (User.mk 7 (Some "ann") "Ann") true in
  let st := mkState {[5 := g]} [] in
  let st' := state_of (callback_handler sample_env 5 "private"
                         (User.mk 7 (Some "ann") "Ann") "move_1_1" st) in
  ∃ g', games st' !! 5 = Some g' ∧ bot_has_answered g'.
Proof.
  apply (bot_answers_at_once sample_env 5 "private"
           (User.mk 7 (Some "ann") "Ann") "move_1_1"
           (mkState {[5 := start_game (User.mk 7 (Some "ann") "Ann") true]} [])
           (start_game (User.mk 7 (Some "ann") "Ann") true)).
  - intros l. apply reverse_Permutation.
  - apply lookup_singleton_eq.
  - lazy beta zeta iota delta [start_game].
    apply reach_vs_bot, reach_player_o, reach_player_x, reach_new.
  - reflexivity.
  - intros _. by right.
  - vm_compute. reflexivity.
Defined.

Lemma pressed_move_is_played_witness :
  let g := start_game (User.mk 7 (Some "ann") "Ann") true in
  let st := mkState {[5 := g]} [] in
  ∃ g', games (state_of (callback_handler sample_env 5 "private"
                           (User.mk 7 (Some "ann") "Ann")
                           ("move_" +:+ str 1 +:+ "_" +:+ str 1) st))
          !! 5 = Some g' ∧
        cell_at (board g') (1, 1) = Some (current_turn g).
Proof.
  apply (pressed_move_is_played sample_env 5 "private"
           (User.mk 7 (Some "ann") "Ann")
           (mkState {[5 := start_game (User.mk 7 (Some "ann") "Ann") true]} [])
           (start_game (User.mk 7 (Some "ann") "Ann") true)
           (mkPlayer 7 "@ann" Cell.X) (mkPlayer 0 "Bot 🤖" Cell.O) 1 1).
  - intros l. apply reverse_Permutation.
  - intros n Hn. assert (n = 0 ∨ n = 1 ∨ n = 2) as [->|[->| ->]] by lia;
      reflexivity.
  - apply lookup_singleton_eq.
  - lazy beta zeta iota delta [start_game].
    apply reach_vs_bot, reach_player_o, reach_player_x, reach_new.
  - reflexivity.
  - reflexivity.
  - reflexivity.
  - lia.
  - lia.
  - reflexivity.
  - left. by split.
Defined.

(** ** Buttons that do nothing *)

(** X25: data that is neither ["play_again"] nor ["join_o"] and does
    not start with ["move_"] changes no game: the buttons of a waiting
    board and of a finished board are answered and nothing else, and
    unknown data is ignored without a call to Telegram. *)
Theorem other_data_changes_nothing env chat_id chat_type user data st :
  data ≠ "play_again" → data ≠ "join_o" → String.prefix "move_" data = false →
  let st' := state_of (callback_handler env chat_id chat_type user data st) in
  games st' = games st ∧
  (String.prefix "wait_" data = false → String.prefix "noop_" data = false →
   st' = st).
Proof.
  intros H1 H2 H3. cbn zeta. unfold callback_handler.
  rewrite (bool_decide_eq_false_2 _ H1), (bool_decide_eq_false_2 _ H2), H3.
  destruct (String.prefix "wait_" data);
    [split; [|done]; apply (ends_state _ st (λ st', games st' = games st));
     by apply ends_send|].
  destruct (String.prefix "noop_" data);
    [split; [|done]; apply (ends_state _ st (λ st', games st' = games st));
     by apply ends_send|].
  done.
Qed.

Lemma other_data_changes_nothing_witness :
  let st := mkState {[5 := start_game (User.mk 7 (Some "ann") "Ann") true]} [] in
  let st' := state_of (callback_handler sample_env 5 "private"
                         (User.mk 7 (Some "ann") "Ann") "noop_1_1" st) in
  games st' = games st ∧
  (String.prefix "wait_" "noop_1_1" = false →
   String.prefix "noop_" "noop_1_1" = false → st' = st).
Proof.
  apply (other_data_changes_nothing sample_env 5 "private"
           (User.mk 7 (Some "ann") "Ann") "noop_1_1");
    [discriminate | discriminate | reflexivity].
Defined.

(** X26: the keyboard shown on a finished game is built without
    changing the game; it is three rows of three buttons followed by
    one row holding the single button "Play Again" with data
    ["play_again"]; the button at a row and column shows the symbol of
    the cell and has the data ["noop_"], the row, ["_"], the column.
    So the data of every button starts with ["noop_"] except the last,
    and with X25 the only button of a finished game that changes
    anything is the one that starts a new game. *)
Theorem game_over_keyboard_is_inert g :
  wf_board (board g) →
  ∃ rows, build_game_over_keyboard g =
            Return (rows ++ [[mkButton "Play Again" "play_again"]]) g ∧
    length rows = 3%nat ∧ Forall (λ row, length row = 3%nat) rows ∧
    (∀ r c, 0 ≤ r ≤ 2 → 0 ≤ c ≤ 2 →
       ∃ cell, cell_at (board g) (r, c) = Some cell ∧
         getitem rows r ≫= (λ row, getitem row c) =
         Some (mkButton (SYMBOLS cell)
                 ("noop_" +:+ str r +:+ "_" +:+ str c))) ∧
    (∀ button, button ∈ concat rows →
       String.prefix "noop_" (callback_data button) = true).
Proof.
  intros Hwf.
  destruct (wf_board_shape _ Hwf)
    as (a0 & a1 & a2 & b0 & b1 & b2 & c0 & c1 & c2 & Hb).
  destruct g as [b px po turn vs ov w]. cbn [board] in *. subst b.
  exists
    ((λ '(r, cells),
       (λ '(c, cell),
          mkButton (SYMBOLS cell) ("noop_" +:+ str r +:+ "_" +:+ str c))
       <$> [(0, cells.1.1); (1, cells.1.2); (2, cells.2)])
     <$> [(0, (a0, a1, a2)); (1, (b0, b1, b2)); (2, (c0, c1, c2))]).
  split; [lazy; reflexivity|]. split; [done|].
  split; [by repeat constructor|]. split.
  - intros r c Hr Hc.
    assert (r = 0 ∨ r = 1 ∨ r = 2) as [->|[->| ->]] by lia;
      assert (c = 0 ∨ c = 1 ∨ c = 2) as [->|[->| ->]] by lia;
      eexists; (split; [reflexivity|]); reflexivity.
  - intros button. cbn. rewrite !elem_of_cons, elem_of_nil.
    intros Hin. repeat destruct Hin as [->|Hin]; done.
Qed.

Lemma game_over_keyboard_is_inert_witness :
  let g := after [(0, 0, Cell.X); (1, 1, Cell.O); (0, 1, Cell.X); (2, 2, Cell.O);
                  (0, 2, Cell.X)] new_game in
  ∃ rows, build_game_over_keyboard g =
            Return (rows ++ [[mkButton "Play Again" "play_again"]]) g ∧
    length rows = 3%nat ∧ Forall (λ row, length row = 3%nat) rows ∧
    (∀ r c, 0 ≤ r ≤ 2 → 0 ≤ c ≤ 2 →
       ∃ cell, cell_at (board g) (r, c) = Some cell ∧
         getitem rows r ≫= (λ row, getitem row c) =
         Some (mkButton (SYMBOLS cell)
                 ("noop_" +:+ str r +:+ "_" +:+ str c))) ∧
    (∀ button, button ∈ concat rows →
       String.prefix "noop_" (callback_data button) = true).
Proof.
  apply (game_over_keyboard_is_inert
           (after [(0, 0, Cell.X); (1, 1, Cell.O); (0, 1, Cell.X);
                   (2, 2, Cell.O); (0, 2, Cell.X)] new_game)).
  split; [reflexivity|]. vm_compute. by repeat constructor.
Defined.
